(** * colsketch: column-sketch dictionaries

    A shallow embedding of [colsketch.go] (package [colsketch]) and the
    properties of its dictionary construction ([NewDict]) and lookup
    ([Dict.Encode]).

    Conventions of the embedding:
    - Go [int] values that hold counts and step sizes are [Z] with the
      two's-complement wrap-around of a 64-bit [int] written out
      ([int_wrap]); slice indices and lengths, which the code keeps
      within [0, len], are [nat];
    - [Code] and [Mode] are [uint16], modelled as [Z] with the wrap-around
      modulo [2^16] written out where the code does arithmetic on them;
    - run-time panics (integer division by zero, index or slice bounds
      out of range) are results of their own: every function that can panic returns a
      [result];
    - the type parameter [T cmp.Ordered] is a type class [Ordered] that
      carries [cmp.Compare], the zero value of the type and the laws of a
      total order. *)

From Stdlib Require Import ZArith List Lia Bool Arith Permutation Sorted.
Import ListNotations.

Local Open Scope Z_scope.

(** ** Results of Go computations *)

Inductive panic : Type :=
| DivideByZero      (* runtime error: integer divide by zero *)
| IndexOutOfRange   (* runtime error: index out of range *)
| SliceBoundsOutOfRange. (* runtime error: slice bounds out of range *)

(** [OutOfFuel] is not a Go outcome: it is what a loop of the embedding
    returns when its iteration budget is used up before the loop
    condition turns false.  The theorems below show it never happens. *)
Inductive result (A : Type) : Type :=
| Ok (a : A)
| Panic (p : panic)
| OutOfFuel.

Arguments Ok {A} a.
Arguments Panic {A} p.
Arguments OutOfFuel {A}.

Definition bind {A B : Type} (m : result A) (k : A -> result B) : result B :=
  match m with
  | Ok a => k a
  | Panic p => Panic p
  | OutOfFuel => OutOfFuel
  end.

Notation "x <- m ;; k" := (bind m (fun x => k))
  (at level 61, m at next level, right associativity).
Notation "' pat <- m ;; k" := (bind m (fun x => match x with pat => k end))
  (at level 61, pat pattern, m at next level, right associativity).

(** ** Go [int] arithmetic (64-bit, two's complement) *)

Definition int_wrap (z : Z) : Z := (z + 2 ^ 63) mod 2 ^ 64 - 2 ^ 63.

Definition int_add (a b : Z) : Z := int_wrap (a + b).
Definition int_mul (a b : Z) : Z := int_wrap (a * b).

(** Go's [/] on integers truncates toward zero and panics on a zero
    divisor. *)
Definition int_div (a b : Z) : result Z :=
  if b =? 0 then Panic DivideByZero else Ok (int_wrap (Z.quot a b)).

(** [len(s)] as an [int]. *)
Definition len {A : Type} (s : list A) : Z := Z.of_nat (length s).

(** [s[i]]: panics when [i] is out of range. *)
Definition index {A : Type} (s : list A) (i : nat) : result A :=
  match nth_error s i with
  | Some x => Ok x
  | None => Panic IndexOutOfRange
  end.

(** ** Code and Mode *)

(** [type Code uint16] *)
Definition Code : Type := Z.

Definition uint16_wrap (z : Z) : Z := z mod 65536.

(** [func (c Code) IsExact() bool { return c%2 == 0 }] *)
Definition IsExact (c : Code) : bool := c mod 2 =? 0.

(** [type Mode uint16], with [Byte Mode = iota] and [Word] the next
    constant. *)
Definition Mode : Type := Z.
Definition Byte : Mode := 0.
Definition Word : Mode := 1.

Definition NumExactCodes (m : Mode) : Z :=
  if m =? Byte then 127
  else if m =? Word then 32767
  else 0.

Definition MaxExactCode (m : Mode) : Code :=
  if m =? Byte then 254       (* 0xfe *)
  else if m =? Word then 65534 (* 0xfffe *)
  else 0.

Definition MaxInexactCode (m : Mode) : Code :=
  if m =? Byte then 255       (* 0xff *)
  else if m =? Word then 65535 (* 0xffff *)
  else 0.

(** The closed set of modes the package declares. *)
Definition valid_mode (m : Mode) : Prop := m = Byte \/ m = Word.

(** ** The ordered value type *)

(** [cmp.Ordered]: [cmp_Compare x y] is [cmp.Compare(x, y)], with [Lt],
    [Eq], [Gt] for the results [-1], [0], [+1]; [zero] is the zero value
    of the type (what [make([]T, 1)] holds).  The laws are those of a
    total order, as the integer and string types of [cmp.Ordered] have
    it. *)
Class Ordered (T : Type) : Type := {
  cmp_Compare : T -> T -> comparison;
  zero : T;
  cmp_Compare_eq : forall x y, cmp_Compare x y = Eq <-> x = y;
  cmp_Compare_antisym : forall x y, cmp_Compare y x = CompOpp (cmp_Compare x y);
  cmp_Compare_trans : forall x y z,
    cmp_Compare x y = Lt -> cmp_Compare y z = Lt -> cmp_Compare x z = Lt
}.

(** Go's [int] ordering (the order of [Z], whatever the width). *)
#[export] Instance Ordered_int : Ordered Z := {
  cmp_Compare := Z.compare;
  zero := 0;
  cmp_Compare_eq := Z.compare_eq_iff;
  cmp_Compare_antisym := fun x y => Z.compare_antisym x y;
  cmp_Compare_trans := fun x y z => Z.lt_trans x y z
}.

(** The sample [0, 1, ..., n-1] of [int] values. *)
Definition ints (n : nat) : list Z := map Z.of_nat (seq 0 n).

Section Colsketch.

Context {T : Type} `{Ordered T}.

(** [cmp.Less(x, y)] *)
Definition cmp_Less (x y : T) : bool :=
  match cmp_Compare x y with Lt => true | _ => false end.

(** [cmp.Compare(x, y) == 0], [>= 0] and [!= 0] on the result. *)
Definition is_zero (c : comparison) : bool :=
  match c with Eq => true | _ => false end.
Definition is_nonneg (c : comparison) : bool :=
  match c with Lt => false | _ => true end.

(** The strict and the non-strict order of the value type. *)
Definition lt (x y : T) : Prop := cmp_Compare x y = Lt.
Definition le (x y : T) : Prop := cmp_Compare x y <> Gt.

(** ** The dictionary *)

Record Dict : Type := {
  mode : Mode;
  codes : list T
}.

(** [func (d *Dict[T]) Len() int] *)
Definition Len (d : Dict) : Z := len (codes d).

(** ** sort.Slice and sort.Search (Go standard library) *)

(** [sort.Slice(s, less)] leaves in [s] a permutation of its elements
    that is sorted for [less].  Under a total order that permutation is
    unique ([sorted_perm_unique] below), so the algorithm does not
    matter; the embedding uses insertion. *)
Fixpoint insert_sorted (x : T) (l : list T) : list T :=
  match l with
  | [] => [x]
  | y :: l' => if cmp_Less y x then y :: insert_sorted x l' else x :: y :: l'
  end.

Definition sort_Slice (s : list T) : list T := fold_right insert_sorted [] s.

(** [sort.Search(n, f)]: the loop of the standard library,
<<
    i, j := 0, n
    for i < j {
        h := int(uint(i+j) >> 1)
        if !f(h) { i = h + 1 } else { j = h }
    }
    return i
>>
    [j - i] shrinks at every iteration, so [n] iterations are enough. *)
Fixpoint search_loop (fuel : nat) (f : nat -> result bool) (i j : nat)
  : result nat :=
  if (i <? j)%nat then
    match fuel with
    | O => OutOfFuel
    | S fuel' =>
        let h := ((i + j) / 2)%nat in
        b <- f h ;;
        if negb b then search_loop fuel' f (h + 1)%nat j
        else search_loop fuel' f i h
    end
  else Ok i.

Definition sort_Search (n : nat) (f : nat -> result bool) : result nat :=
  search_loop n f 0%nat n.

(** ** Lookup *)

(** [func (d *Dict[T]) Encode(value T) Code] *)
Definition Encode (d : Dict) (value : T) : result Code :=
  idx <- sort_Search (length (codes d))
           (fun i => c <- index (codes d) i ;;
                     Ok (is_nonneg (cmp_Compare c value))) ;;
  let code := uint16_wrap (2 * (Z.of_nat idx + 1)) in
  if len (codes d) <=? Z.of_nat idx then Ok (uint16_wrap (code - 1))
  else
    c <- index (codes d) idx ;;
    if negb (is_zero (cmp_Compare c value)) then Ok (uint16_wrap (code - 1))
    else Ok code.

(** ** Frequency clustering *)

Record cluster : Type := {
  value : T;
  count : Z
}.

(** One iteration of the [range] loop of [clusters], on the loop state
    [(clu, curr, count)]. *)
Definition clusters_step (st : list cluster * T * Z) (s : T)
  : list cluster * T * Z :=
  let '(clu, curr, cnt) := st in
  if is_zero (cmp_Compare s curr) then (clu, curr, int_add cnt 1)
  else (clu ++ [{| value := curr; count := cnt |}], s, 1).

(** [func clusters(sortedSample []T) []cluster[T]] *)
Definition clusters (sortedSample : list T) : list cluster :=
  match sortedSample with
  | [] => []
  | s0 :: _ =>
      let '(clu, curr, cnt) :=
        fold_left clusters_step sortedSample ([], s0, 0) in
      clu ++ [{| value := curr; count := cnt |}]
  end.

(** ** Adaptive code assignment *)

(** The inner loop of [assignCodesWithStep], on the loop state
    [(lastIdx, idxWithMaxVal, clusterCountSum)]:
<<
    for lastIdx < len(clu) && clusterCountSum < codestep {
        if clu[idxWithMaxVal].count < clu[lastIdx].count {
            idxWithMaxVal = lastIdx
        }
        clusterCountSum += clu[lastIdx].count
        lastIdx++
    }
>> *)
Fixpoint accumulate (fuel : nat) (codestep : Z) (clu : list cluster)
    (lastIdx idxWithMaxVal : nat) (clusterCountSum : Z)
  : result (nat * nat * Z) :=
  if (lastIdx <? length clu)%nat && (clusterCountSum <? codestep) then
    match fuel with
    | O => OutOfFuel
    | S fuel' =>
        cm <- index clu idxWithMaxVal ;;
        cl <- index clu lastIdx ;;
        let idxWithMaxVal' :=
          if count cm <? count cl then lastIdx else idxWithMaxVal in
        accumulate fuel' codestep clu (S lastIdx) idxWithMaxVal'
                   (int_add clusterCountSum (count cl))
    end
  else Ok (lastIdx, idxWithMaxVal, clusterCountSum).

(** The outer loop of [assignCodesWithStep], on the loop state
    [(firstIdx, codes)].  [firstIdx] grows at every iteration, so
    [len(clu)] iterations are enough. *)
Fixpoint assign_loop (fuel : nat) (codestep : Z) (clu : list cluster)
    (firstIdx : nat) (codes : list T) : result (list T) :=
  if (firstIdx <? length clu)%nat then
    match fuel with
    | O => OutOfFuel
    | S fuel' =>
        '(lastIdx, idxWithMaxVal, _) <-
          accumulate (length clu - firstIdx) codestep clu firstIdx firstIdx 0 ;;
        c <- index clu idxWithMaxVal ;;
        assign_loop fuel' codestep clu (lastIdx + 1)%nat (codes ++ [value c])
    end
  else Ok codes.

(** [func assignCodesWithStep(codestep int, clu []cluster[T]) []T] *)
Definition assignCodesWithStep (codestep : Z) (clu : list cluster)
  : result (list T) :=
  assign_loop (length clu) codestep clu 0%nat [].

(** The [for i := 0; i < 8; i++] loop of [assignCodesWithMinimalStep], on
    the loop state [(codestep, codes)]; [iters] is the number of
    iterations left. *)
Fixpoint refine_loop (iters : nat) (ncodes : Z) (clu : list cluster)
    (codestep : Z) (codes : list T) : result (list T) :=
  match iters with
  | O => Ok codes
  | S iters' =>
      if len codes =? ncodes then Ok codes
      else if len codes >? ncodes then
        (* codes = codes[:ncodes] *)
        if ncodes <? 0 then Panic SliceBoundsOutOfRange
        else Ok (firstn (Z.to_nat ncodes) codes)
      else
        bias <- int_div (int_mul (len codes) 10000) ncodes ;;
        codestep' <- int_div (int_mul codestep bias) 10000 ;;
        next <- assignCodesWithStep codestep' clu ;;
        if len next <? ncodes then refine_loop iters' ncodes clu codestep' next
        else Ok codes
  end.

(** [func assignCodesWithMinimalStep(sampleSize, ncodes int, clu []cluster[T]) []T] *)
Definition assignCodesWithMinimalStep (sampleSize ncodes : Z)
    (clu : list cluster) : result (list T) :=
  codestep <- int_div sampleSize ncodes ;;
  codes <- assignCodesWithStep codestep clu ;;
  refine_loop 8 ncodes clu codestep codes.

(** ** Dictionary construction *)

(** [func NewDict(mode Mode, sample []T) Dict[T]] *)
Definition NewDict (m : Mode) (sample : list T) : result Dict :=
  if len sample =? 0 then Ok {| mode := m; codes := [zero] |}
  else
    let sortedSample := sort_Slice sample in
    let clu := clusters sortedSample in
    let ncodes := NumExactCodes m in
    if len clu <=? ncodes then Ok {| mode := m; codes := map value clu |}
    else
      codes <- assignCodesWithMinimalStep (len sample) ncodes clu ;;
      Ok {| mode := m; codes := codes |}.

(** A dictionary that some call of [NewDict] returned. *)
Definition constructed (d : Dict) : Prop :=
  exists m sample, NewDict m sample = Ok d.

(** ** The segments of [assignCodesWithStep]

    The same two loops, recording for every iteration of the outer loop
    the triple [(firstIdx, lastIdx, idxWithMaxVal)] at the point where
    the code appends [clu[idxWithMaxVal].value]: the segment accumulated
    the clusters at the indices [firstIdx .. lastIdx-1], and the outer
    loop goes on from [lastIdx + 1]. *)
Fixpoint segments_loop (fuel : nat) (codestep : Z) (clu : list cluster)
    (firstIdx : nat) : result (list (nat * nat * nat)) :=
  if (firstIdx <? length clu)%nat then
    match fuel with
    | O => OutOfFuel
    | S fuel' =>
        '(lastIdx, idxWithMaxVal, _) <-
          accumulate (length clu - firstIdx) codestep clu firstIdx firstIdx 0 ;;
        rest <- segments_loop fuel' codestep clu (lastIdx + 1)%nat ;;
        Ok ((firstIdx, lastIdx, idxWithMaxVal) :: rest)
    end
  else Ok [].

Definition segments (codestep : Z) (clu : list cluster)
  : result (list (nat * nat * nat)) :=
  segments_loop (length clu) codestep clu 0%nat.

Definition seg_first (s : nat * nat * nat) : nat := fst (fst s).
Definition seg_last (s : nat * nat * nat) : nat := snd (fst s).
Definition seg_max (s : nat * nat * nat) : nat := snd s.

(** ** Slices and their backing arrays

    What [NewDict] does to memory.  A heap is the list of the backing
    arrays of element type [T], in allocation order; a slice is a window
    [off .. off+size-1] of the array number [base].  The slice of
    clusters that [clusters] builds has another element type and never
    aliases a [[]T]; it stays a value. *)
Definition heap : Type := list (list T).

Record slice : Type := {
  base : nat;
  off : nat;
  size : nat
}.

Definition valid_slice (h : heap) (s : slice) : Prop :=
  (base s < length h)%nat /\
  (off s + size s <= length (nth (base s) h []))%nat.

(** The elements [s[0], ..., s[len(s)-1]]. *)
Definition load (h : heap) (s : slice) : list T :=
  firstn (size s) (skipn (off s) (nth (base s) h [])).

Fixpoint update_nth {A : Type} (n : nat) (x : A) (l : list A) : list A :=
  match l, n with
  | [], _ => []
  | _ :: l', O => x :: l'
  | y :: l', S n' => y :: update_nth n' x l'
  end.

(** Overwriting [s[0], ..., s[len(s)-1]] with [vs] in place. *)
Definition store (h : heap) (s : slice) (vs : list T) : heap :=
  match nth_error h (base s) with
  | Some a =>
      update_nth (base s)
        (firstn (off s) a ++ vs ++ skipn (off s + size s) a) h
  | None => h
  end.

(** A fresh backing array holding [vs], and the slice over all of it:
    [make] and [append] to a nil slice. *)
Definition alloc (h : heap) (vs : list T) : heap * slice :=
  (h ++ [vs], {| base := length h; off := 0; size := length vs |}).

Record DictMem : Type := {
  mem_mode : Mode;
  mem_codes : slice
}.

(** [NewDict] on the heap: the sample is a slice of the caller. *)
Definition NewDict_mem (m : Mode) (sample : slice) (h : heap)
  : heap * result DictMem :=
  if Z.of_nat (size sample) =? 0 then
    (* Dict[T]{mode, make([]T, 1)} *)
    let '(h1, codes) := alloc h [zero] in
    (h1, Ok {| mem_mode := m; mem_codes := codes |})
  else
    (* sortedSample := append([]T(nil), sample...) *)
    let '(h1, sortedSample) := alloc h (load h sample) in
    (* sort.Slice(sortedSample, ...) *)
    let h2 := store h1 sortedSample (sort_Slice (load h1 sortedSample)) in
    let clu := clusters (load h2 sortedSample) in
    let ncodes := NumExactCodes m in
    if len clu <=? ncodes then
      let '(h3, codes) := alloc h2 (map value clu) in
      (h3, Ok {| mem_mode := m; mem_codes := codes |})
    else
      match assignCodesWithMinimalStep (Z.of_nat (size sample)) ncodes clu with
      | Ok cs =>
          let '(h3, codes) := alloc h2 cs in
          (h3, Ok {| mem_mode := m; mem_codes := codes |})
      | Panic p => (h2, Panic p)
      | OutOfFuel => (h2, OutOfFuel)
      end.

(** ** Vocabulary of the properties *)

(** Strictly ascending, hence without duplicates. *)
Definition ascending (l : list T) : Prop := StronglySorted lt l.

(** Sorted for [cmp.Less], equal neighbours allowed. *)
Definition nondecreasing (l : list T) : Prop := StronglySorted le l.

(** The distinct values of a sample: first occurrences, in order. *)
Definition eqb (x y : T) : bool := is_zero (cmp_Compare x y).

Fixpoint distinct (l : list T) : list T :=
  match l with
  | [] => []
  | x :: l' => x :: filter (fun y => negb (eqb y x)) (distinct l')
  end.

(** The value a segment contributes: [clu[idxWithMaxVal].value]. *)
Definition no_cluster : cluster := {| value := zero; count := 0 |}.

Definition seg_value (clu : list cluster) (s : nat * nat * nat) : T :=
  value (nth (seg_max s) clu no_cluster).

(** The shape of the segment list of a cluster list of length [n], for
    an outer loop that is at [firstIdx]: a segment starts where the loop
    is, ends within the list, holds its representative's index (before
    its end when it accumulated a cluster), and the loop resumes one
    past the segment's end. *)
Fixpoint chained (n firstIdx : nat) (segs : list (nat * nat * nat)) : Prop :=
  match segs with
  | [] => (n <= firstIdx)%nat
  | s :: rest =>
      (seg_first s = firstIdx /\
       firstIdx < n /\
       firstIdx <= seg_max s <= seg_last s /\
       seg_max s < n /\
       seg_last s <= n /\
       (firstIdx < seg_last s -> seg_max s < seg_last s) /\
       chained n (seg_last s + 1) rest)%nat
  end.

(** ** Vocabulary of the further properties *)

(** The largest [int]. *)
Definition maxInt : Z := 2 ^ 63 - 1.

(** The sample a cluster list stands for: every value as often as its
    count says, in the order of the clusters. *)
Definition expand (clu : list cluster) : list T :=
  flat_map (fun c => repeat (value c) (Z.to_nat (count c))) clu.

(** How often a value occurs in a sample. *)
Definition occurrences (v : T) (l : list T) : Z := len (filter (eqb v) l).

(** How many values of [l] lie below [v], and whether [v] is one of
    them. *)
Definition below (v : T) (l : list T) : Z :=
  len (filter (fun r => cmp_Less r v) l).

Definition member (v : T) (l : list T) : bool := existsb (eqb v) l.

(** [clu[i].count], for an index in range. *)
Definition count_at (clu : list cluster) (i : nat) : Z :=
  count (nth i clu no_cluster).

(** The sample values that the clusters [first .. last-1] stand for. *)
Definition covered (clu : list cluster) (first last : nat) : Z :=
  fold_right Z.add 0 (map (count_at clu) (seq first (last - first))).

(** The representative of a segment that accumulated a cluster is one
    of the clusters it accumulated, of the largest count among them, and
    the earliest such; the representative of a segment that accumulated
    nothing is the cluster the segment starts at. *)
Definition earliest_max (clu : list cluster) (s : nat * nat * nat) : Prop :=
  (seg_first s <= seg_max s <= seg_last s)%nat /\
  ((seg_first s < seg_last s)%nat ->
   (seg_first s <= seg_max s < seg_last s)%nat) /\
  forall k, (seg_first s <= k < seg_last s)%nat ->
    count_at clu k <= count_at clu (seg_max s) /\
    ((k < seg_max s)%nat -> count_at clu k < count_at clu (seg_max s)).

End Colsketch.

Arguments Dict T : clear implicits.
Arguments cluster T : clear implicits.
Arguments heap T : clear implicits.

(** * Properties *)

Lemma In_firstn {A : Type} (n : nat) (l : list A) (x : A) :
  In x (firstn n l) -> In x l.
Proof.
  revert n; induction l as [| a l IH]; intros [| n]; simpl; try tauto.
  intros [-> | Hin]; [left; reflexivity | right; eapply IH; eassumption].
Qed.

Section OrderFacts.

Context {T : Type} `{Ordered T}.

Lemma cmp_Compare_refl (x : T) : cmp_Compare x x = Eq.
Proof. apply cmp_Compare_eq; reflexivity. Qed.

Lemma cmp_Compare_gt (x y : T) : cmp_Compare x y = Gt <-> lt y x.
Proof.
  unfold lt; rewrite (cmp_Compare_antisym x y).
  destruct (cmp_Compare x y); simpl; split; congruence.
Qed.

Lemma lt_irrefl (x : T) : ~ lt x x.
Proof. unfold lt; rewrite cmp_Compare_refl; discriminate. Qed.

Lemma lt_trans (x y z : T) : lt x y -> lt y z -> lt x z.
Proof. apply cmp_Compare_trans. Qed.

Lemma lt_asym (x y : T) : lt x y -> ~ lt y x.
Proof. intros Hxy Hyx; exact (lt_irrefl x (lt_trans _ _ _ Hxy Hyx)). Qed.

Lemma le_cases (x y : T) : le x y <-> lt x y \/ x = y.
Proof.
  unfold le, lt; split.
  - intros Hle; case_eq (cmp_Compare x y); intros Hc.
    + right; apply cmp_Compare_eq; exact Hc.
    + left; reflexivity.
    + contradiction.
  - intros [Hlt | ->].
    + rewrite Hlt; discriminate.
    + rewrite cmp_Compare_refl; discriminate.
Qed.

Lemma le_refl (x : T) : le x x.
Proof. apply le_cases; right; reflexivity. Qed.

Lemma lt_le (x y : T) : lt x y -> le x y.
Proof. intros; apply le_cases; left; assumption. Qed.

Lemma le_lt_trans (x y z : T) : le x y -> lt y z -> lt x z.
Proof.
  intros Hxy Hyz; apply le_cases in Hxy; destruct Hxy as [Hlt | ->].
  - exact (lt_trans _ _ _ Hlt Hyz).
  - exact Hyz.
Qed.

Lemma lt_le_trans (x y z : T) : lt x y -> le y z -> lt x z.
Proof.
  intros Hxy Hyz; apply le_cases in Hyz; destruct Hyz as [Hlt | <-].
  - exact (lt_trans _ _ _ Hxy Hlt).
  - exact Hxy.
Qed.

Lemma le_trans (x y z : T) : le x y -> le y z -> le x z.
Proof.
  intros Hxy Hyz; apply le_cases in Hxy; destruct Hxy as [Hlt | ->].
  - apply lt_le; exact (lt_le_trans _ _ _ Hlt Hyz).
  - exact Hyz.
Qed.

Lemma not_lt_le (x y : T) : ~ lt x y <-> le y x.
Proof.
  unfold le; rewrite cmp_Compare_gt; tauto.
Qed.

Lemma le_antisym (x y : T) : le x y -> le y x -> x = y.
Proof.
  intros Hxy Hyx; apply le_cases in Hxy; destruct Hxy as [Hlt | Heq]; auto.
  apply not_lt_le in Hyx; contradiction.
Qed.

Lemma cmp_Less_true (x y : T) : cmp_Less x y = true <-> lt x y.
Proof.
  unfold cmp_Less, lt; destruct (cmp_Compare x y); split; congruence.
Qed.

Lemma cmp_Less_false (x y : T) : cmp_Less x y = false <-> le y x.
Proof.
  rewrite <- not_lt_le, <- cmp_Less_true.
  destruct (cmp_Less x y); split; congruence.
Qed.

Lemma is_zero_true (x y : T) : is_zero (cmp_Compare x y) = true <-> x = y.
Proof.
  rewrite <- cmp_Compare_eq.
  destruct (cmp_Compare x y); simpl; split; congruence.
Qed.

Lemma is_nonneg_true (x y : T) : is_nonneg (cmp_Compare x y) = true <-> le y x.
Proof.
  rewrite <- not_lt_le; unfold lt.
  destruct (cmp_Compare x y); simpl; split; congruence.
Qed.

Lemma is_nonneg_false (x y : T) : is_nonneg (cmp_Compare x y) = false <-> lt x y.
Proof.
  unfold lt; destruct (cmp_Compare x y); simpl; split; congruence.
Qed.

(** Lists in ascending order. *)

Lemma ascending_snoc (l : list T) (b : T) :
  ascending l -> Forall (fun x => lt x b) l -> ascending (l ++ [b]).
Proof.
  unfold ascending; induction l as [| a l IH]; simpl; intros Hs Hb.
  - constructor; constructor.
  - apply StronglySorted_inv in Hs; destruct Hs as [Hs Ha].
    inversion Hb; subst.
    constructor; [apply IH; assumption |].
    apply Forall_app; split; [assumption | constructor; [assumption | constructor]].
Qed.

Lemma ascending_NoDup (l : list T) : ascending l -> NoDup l.
Proof.
  unfold ascending; induction 1 as [| a l Hs IH Ha]; constructor; auto.
  intros Hin; rewrite Forall_forall in Ha.
  exact (lt_irrefl a (Ha a Hin)).
Qed.

Lemma ascending_nth (l : list T) :
  ascending l ->
  forall i j x y, (i < j)%nat ->
    nth_error l i = Some x -> nth_error l j = Some y -> lt x y.
Proof.
  unfold ascending; induction 1 as [| a l Hs IH Ha]; intros i j x y Hij Hi Hj.
  - destruct i; discriminate.
  - destruct j as [| j]; [lia |].
    simpl in Hj; destruct i as [| i]; simpl in Hi.
    + injection Hi as <-; rewrite Forall_forall in Ha.
      apply Ha; eapply nth_error_In; eassumption.
    + apply (IH i j); auto; lia.
Qed.

Lemma ascending_firstn (n : nat) (l : list T) : ascending l -> ascending (firstn n l).
Proof.
  unfold ascending; intros Hs; revert n.
  induction Hs as [| a l Hs IH Ha]; intros [| n]; simpl; try constructor; auto.
  rewrite Forall_forall in *; intros x Hx; apply Ha.
  eapply In_firstn; eassumption.
Qed.

End OrderFacts.

(** ** Sorting and clustering *)

Section SortCluster.

Context {T : Type} `{Ordered T}.

Lemma insert_sorted_perm (x : T) (l : list T) :
  Permutation (x :: l) (insert_sorted x l).
Proof.
  induction l as [| y l IH]; simpl; [reflexivity |].
  destruct (cmp_Less y x); [| reflexivity].
  rewrite perm_swap; constructor; exact IH.
Qed.

Lemma insert_sorted_nondecreasing (x : T) (l : list T) :
  nondecreasing l -> nondecreasing (insert_sorted x l).
Proof.
  unfold nondecreasing; induction 1 as [| y l Hs IH Hy]; simpl.
  - constructor; constructor.
  - case_eq (cmp_Less y x); intros Hc.
    + constructor; [exact IH |].
      apply cmp_Less_true, lt_le in Hc.
      rewrite Forall_forall in *; intros z Hz.
      apply (Permutation_in _ (Permutation_sym (insert_sorted_perm x l))) in Hz.
      destruct Hz as [<- | Hz]; auto.
    + apply cmp_Less_false in Hc.
      constructor; [constructor; assumption |].
      constructor; [exact Hc |].
      rewrite Forall_forall in *; intros z Hz.
      eapply le_trans; [exact Hc | auto].
Qed.

Lemma sort_Slice_perm (l : list T) : Permutation l (sort_Slice l).
Proof.
  induction l as [| x l IH]; simpl; [constructor |].
  rewrite <- insert_sorted_perm; constructor; exact IH.
Qed.

Lemma sort_Slice_nondecreasing (l : list T) : nondecreasing (sort_Slice l).
Proof.
  induction l as [| x l IH]; simpl.
  - constructor.
  - apply insert_sorted_nondecreasing; exact IH.
Qed.

Lemma sort_Slice_In (l : list T) (x : T) : In x (sort_Slice l) <-> In x l.
Proof.
  split; apply Permutation_in;
    [apply Permutation_sym |]; apply sort_Slice_perm.
Qed.

Lemma sort_Slice_length (l : list T) : length (sort_Slice l) = length l.
Proof. symmetry; apply Permutation_length, sort_Slice_perm. Qed.

(** Under a total order a sample has one sorted arrangement only: what
    [sort.Slice] leaves in the slice does not depend on its algorithm. *)
Lemma sorted_perm_unique (l l' : list T) :
  nondecreasing l -> nondecreasing l' -> Permutation l l' -> l = l'.
Proof.
  unfold nondecreasing; intros Hs; revert l'.
  induction Hs as [| a l Hs IH Ha]; intros l' Hs' Hp.
  - apply Permutation_nil in Hp; congruence.
  - destruct Hs' as [| b l' Hs' Hb].
    + apply Permutation_sym, Permutation_nil in Hp; discriminate.
    + assert (a = b) as <-.
      { rewrite Forall_forall in Ha, Hb.
        assert (In a (b :: l')) as Hina
          by (eapply Permutation_in; [exact Hp | left; reflexivity]).
        assert (In b (a :: l)) as Hinb
          by (eapply Permutation_in;
              [apply Permutation_sym; exact Hp | left; reflexivity]).
        destruct Hina as [-> | Hina]; [reflexivity |].
        destruct Hinb as [-> | Hinb]; [reflexivity |].
        apply le_antisym; auto. }
      f_equal; apply IH; [assumption |].
      eapply Permutation_cons_inv; eassumption.
Qed.

Lemma sort_Slice_unique (l s : list T) :
  nondecreasing s -> Permutation l s -> s = sort_Slice l.
Proof.
  intros Hs Hp; apply sorted_perm_unique; auto using sort_Slice_nondecreasing.
  rewrite <- Hp; apply sort_Slice_perm.
Qed.

(** The loop of [clusters]: the values closed so far ascend and lie
    below the current one. *)
Lemma clusters_fold (l : list T) :
  forall clu curr cnt clu' curr' cnt',
    nondecreasing l -> Forall (le curr) l ->
    ascending (map value clu) ->
    Forall (fun x => lt x curr) (map value clu) ->
    fold_left clusters_step l (clu, curr, cnt) = (clu', curr', cnt') ->
    ascending (map value clu') /\
    Forall (fun x => lt x curr') (map value clu') /\
    (forall x, In x (map value clu' ++ [curr']) <->
               In x (map value clu ++ [curr]) \/ In x l).
Proof.
  induction l as [| s l IH]; simpl; intros clu curr cnt clu' curr' cnt' Hs Hle Ha Hb Hf.
  - injection Hf as <- <- <-; repeat split; auto; tauto.
  - apply StronglySorted_inv in Hs; destruct Hs as [Hs Hsl].
    inversion Hle as [| ? ? Hcs Hcl]; subst.
    case_eq (is_zero (cmp_Compare s curr)); intros Hz; rewrite Hz in Hf.
    + apply is_zero_true in Hz; subst s.
      destruct (IH _ _ _ _ _ _ Hs Hcl Ha Hb Hf) as (Ha' & Hb' & Hin).
      repeat split; auto.
      * intros Hx; apply Hin in Hx; tauto.
      * intros [Hx | [<- | Hx]]; apply Hin; auto.
        left; apply in_or_app; right; left; reflexivity.
    + assert (lt curr s) as Hlt.
      { apply le_cases in Hcs; destruct Hcs as [Hlt | ->]; auto.
        rewrite cmp_Compare_refl in Hz; discriminate. }
      assert (Forall (fun x => lt x s) (map value clu ++ [curr])) as Hb2.
      { apply Forall_app; split; [| constructor; [exact Hlt | constructor]].
        rewrite Forall_forall in *; intros x Hx.
        exact (lt_trans _ _ _ (Hb x Hx) Hlt). }
      refine (_ (IH (clu ++ [{| value := curr; count := cnt |}]) s 1
                    clu' curr' cnt' Hs Hsl _ _ Hf)).
      * intros (Ha' & Hb' & Hin); repeat split; auto.
        -- intros Hx; apply Hin in Hx; rewrite map_app in Hx; simpl in Hx.
           rewrite in_app_iff in Hx; simpl in Hx; tauto.
        -- intros Hx; apply Hin; rewrite map_app; simpl.
           rewrite in_app_iff; simpl; tauto.
      * rewrite map_app; simpl; apply ascending_snoc; assumption.
      * rewrite map_app; simpl; exact Hb2.
Qed.

Lemma clusters_spec (l : list T) :
  nondecreasing l ->
  ascending (map value (clusters l)) /\
  (forall x, In x (map value (clusters l)) <-> In x l).
Proof.
  intros Hs; destruct l as [| s0 l]; [split; [constructor | tauto] |].
  unfold clusters.
  destruct (fold_left clusters_step (s0 :: l) ([], s0, 0))
    as [[clu' curr'] cnt'] eqn:Hf.
  assert (Forall (le s0) (s0 :: l)) as Hle.
  { constructor; [apply le_refl | apply StronglySorted_inv in Hs; tauto]. }
  destruct (clusters_fold _ [] _ _ _ _ _ Hs Hle (SSorted_nil _) (Forall_nil _) Hf)
    as (Ha & Hb & Hin).
  rewrite map_app; simpl; split; [apply ascending_snoc; assumption |].
  intros x; rewrite Hin; simpl; tauto.
Qed.

Lemma clusters_nonempty (l : list T) : l <> [] -> clusters l <> [].
Proof.
  destruct l as [| s0 l]; [congruence |]; intros _; unfold clusters.
  destruct (fold_left clusters_step (s0 :: l) ([], s0, 0)) as [[clu' curr'] cnt'].
  destruct clu'; discriminate.
Qed.

End SortCluster.

(** ** Segments *)

Section Segments.

Context {T : Type} `{Ordered T}.

Lemma index_lt {A : Type} (s : list A) (i : nat) (d : A) :
  (i < length s)%nat -> index s i = Ok (nth i s d).
Proof.
  intros Hi; unfold index.
  rewrite (nth_error_nth' s d Hi); reflexivity.
Qed.

Lemma accumulate_eq fuel codestep (clu : list (cluster T)) lastIdx idxMax sum :
  accumulate fuel codestep clu lastIdx idxMax sum =
  if (lastIdx <? length clu)%nat && (sum <? codestep) then
    match fuel with
    | O => OutOfFuel
    | S fuel' =>
        cm <- index clu idxMax ;;
        cl <- index clu lastIdx ;;
        accumulate fuel' codestep clu (S lastIdx)
          (if count cm <? count cl then lastIdx else idxMax)
          (int_add sum (count cl))
    end
  else Ok (lastIdx, idxMax, sum).
Proof. destruct fuel; reflexivity. Qed.

(** The inner loop ends, without a panic, and leaves the index of the
    maximum either where it was or inside the clusters it went over. *)
Lemma accumulate_spec (codestep : Z) (clu : list (cluster T)) :
  forall fuel lastIdx idxMax sum,
    (length clu - lastIdx <= fuel)%nat ->
    (idxMax < length clu)%nat ->
    exists l m s,
      accumulate fuel codestep clu lastIdx idxMax sum = Ok (l, m, s) /\
      (lastIdx <= l)%nat /\
      ((l <= length clu)%nat \/ l = lastIdx) /\
      (m = idxMax \/ (lastIdx <= m < l)%nat) /\
      (m < length clu)%nat /\
      ((lastIdx < length clu)%nat -> sum < codestep -> (lastIdx < l)%nat) /\
      ((l < length clu)%nat -> codestep <= s).
Proof.
  induction fuel as [| fuel IH]; intros lastIdx idxMax sum Hfuel Hm;
    rewrite accumulate_eq;
    destruct (Nat.ltb_spec lastIdx (length clu)) as [Hlt | Hge];
    destruct (Z.ltb_spec sum codestep) as [Hs | Hs]; simpl;
    try lia;
    try (exists lastIdx, idxMax, sum; repeat split; auto; lia).
  rewrite (index_lt clu idxMax no_cluster Hm),
          (index_lt clu lastIdx no_cluster Hlt); simpl.
  set (m1 := if count (nth idxMax clu no_cluster) <?
                count (nth lastIdx clu no_cluster) then lastIdx else idxMax).
  assert ((m1 < length clu)%nat /\ (m1 = idxMax \/ m1 = lastIdx)) as [Hm1 Hm1'].
  { unfold m1; destruct (_ <? _); split; auto. }
  destruct (IH (S lastIdx) m1
              (int_add sum (count (nth lastIdx clu no_cluster))))
    as (l & m & s & Heq & Hl & Hlen & Hmm & Hmlen & _ & Hexit); [lia | exact Hm1 |].
  exists l, m, s; repeat split; auto; lia.
Qed.

Lemma segments_loop_eq fuel codestep (clu : list (cluster T)) firstIdx :
  segments_loop fuel codestep clu firstIdx =
  if (firstIdx <? length clu)%nat then
    match fuel with
    | O => OutOfFuel
    | S fuel' =>
        '(lastIdx, idxWithMaxVal, _) <-
          accumulate (length clu - firstIdx) codestep clu firstIdx firstIdx 0 ;;
        rest <- segments_loop fuel' codestep clu (lastIdx + 1)%nat ;;
        Ok ((firstIdx, lastIdx, idxWithMaxVal) :: rest)
    end
  else Ok [].
Proof. destruct fuel; reflexivity. Qed.

Lemma assign_loop_eq fuel codestep (clu : list (cluster T)) firstIdx codes :
  assign_loop fuel codestep clu firstIdx codes =
  if (firstIdx <? length clu)%nat then
    match fuel with
    | O => OutOfFuel
    | S fuel' =>
        '(lastIdx, idxWithMaxVal, _) <-
          accumulate (length clu - firstIdx) codestep clu firstIdx firstIdx 0 ;;
        c <- index clu idxWithMaxVal ;;
        assign_loop fuel' codestep clu (lastIdx + 1)%nat (codes ++ [value c])
    end
  else Ok codes.
Proof. destruct fuel; reflexivity. Qed.

(** The outer loop ends, without a panic; its segments are chained and
    the codes it appends are the segments' values. *)
Lemma segments_loop_spec (codestep : Z) (clu : list (cluster T)) :
  forall fuel firstIdx,
    (length clu - firstIdx <= fuel)%nat ->
    exists segs,
      segments_loop fuel codestep clu firstIdx = Ok segs /\
      chained (length clu) firstIdx segs /\
      (0 < codestep -> Forall (fun s => (seg_first s < seg_last s)%nat) segs) /\
      forall codes,
        assign_loop fuel codestep clu firstIdx codes =
        Ok (codes ++ map (seg_value clu) segs).
Proof.
  induction fuel as [| fuel IH]; intros firstIdx Hfuel;
    rewrite segments_loop_eq;
    destruct (Nat.ltb_spec firstIdx (length clu)) as [Hlt | Hge];
    try lia;
    try (exists []; split; [reflexivity |]; split; [exact Hge |];
         split; [constructor |];
         intros codes; rewrite assign_loop_eq;
         destruct (Nat.ltb_spec firstIdx (length clu)); try lia;
         rewrite app_nil_r; reflexivity).
  destruct (accumulate_spec codestep clu (length clu - firstIdx)
              firstIdx firstIdx 0 (Nat.le_refl _) Hlt)
    as (l & m & s & Hacc & Hl & Hlen & Hm & Hmlen & Hprog & _).
  destruct (IH (l + 1)%nat) as (rest & Hrest & Hch & Hne & Hcodes); [lia |].
  exists ((firstIdx, l, m) :: rest).
  split; [rewrite Hacc; simpl; rewrite Hrest; reflexivity |]; split; [| split].
  - simpl; unfold seg_first, seg_last, seg_max; simpl.
    repeat split; auto; lia.
  - intros Hpos; constructor; [unfold seg_first, seg_last; simpl; auto | auto].
  - intros codes; rewrite assign_loop_eq.
    destruct (Nat.ltb_spec firstIdx (length clu)); try lia.
    rewrite Hacc; simpl; rewrite (index_lt clu m no_cluster Hmlen); simpl.
    rewrite Hcodes, <- app_assoc; reflexivity.
Qed.

Lemma segments_total (codestep : Z) (clu : list (cluster T)) :
  exists segs,
    segments codestep clu = Ok segs /\
    chained (length clu) 0 segs /\
    (0 < codestep -> Forall (fun s => (seg_first s < seg_last s)%nat) segs) /\
    assignCodesWithStep codestep clu = Ok (map (seg_value clu) segs).
Proof.
  destruct (segments_loop_spec codestep clu (length clu) 0%nat)
    as (segs & Hs & Hch & Hne & Hc); [lia |].
  exists segs; repeat split; auto.
  unfold assignCodesWithStep; rewrite Hc; reflexivity.
Qed.

(** With a step of at least 1 every segment accumulates a cluster. *)
Lemma positive_step_segments (codestep : Z) (clu : list (cluster T)) segs :
  0 < codestep -> segments codestep clu = Ok segs ->
  Forall (fun s => (seg_first s < seg_last s)%nat) segs.
Proof.
  intros Hpos Hsegs.
  destruct (segments_total codestep clu) as (segs' & Hs & _ & Hne & _).
  rewrite Hsegs in Hs; injection Hs as <-; exact (Hne Hpos).
Qed.

End Segments.

(** ** Codes drawn from the clusters *)

Section Assign.

Context {T : Type} `{Ordered T}.

Lemma chained_bounds (n : nat) (segs : list (nat * nat * nat)) :
  forall f, chained n f segs ->
    Forall (fun s => (f <= seg_first s /\ seg_first s <= seg_max s /\
                      seg_max s <= seg_last s /\ seg_max s < n)%nat) segs.
Proof.
  induction segs as [| s rest IH]; intros f Hch; [constructor |].
  simpl in Hch; destruct Hch as (Hf & _ & Hm & Hmn & _ & _ & Hrest).
  constructor; [lia |].
  apply IH in Hrest; revert Hrest; apply Forall_impl; intros; lia.
Qed.

Lemma nth_error_map_value (clu : list (cluster T)) (i : nat) :
  (i < length clu)%nat ->
  nth_error (map value clu) i = Some (value (nth i clu no_cluster)).
Proof.
  intros Hi; rewrite nth_error_map, (nth_error_nth' clu no_cluster Hi).
  reflexivity.
Qed.

Lemma seg_value_In (clu : list (cluster T)) (s : nat * nat * nat) :
  (seg_max s < length clu)%nat -> In (seg_value clu s) (map value clu).
Proof.
  intros Hs; unfold seg_value; apply in_map, nth_In; exact Hs.
Qed.

Lemma chained_values_incl (clu : list (cluster T)) segs f :
  chained (length clu) f segs ->
  incl (map (seg_value clu) segs) (map value clu).
Proof.
  intros Hch x Hx; apply in_map_iff in Hx; destruct Hx as (s & <- & Hs).
  apply chained_bounds in Hch; rewrite Forall_forall in Hch.
  apply seg_value_In; apply Hch in Hs; lia.
Qed.

Lemma chained_values_ascending (clu : list (cluster T)) :
  ascending (map value clu) ->
  forall segs f, chained (length clu) f segs ->
    ascending (map (seg_value clu) segs).
Proof.
  intros Hasc; induction segs as [| s rest IH]; intros f Hch; [constructor |].
  simpl in Hch; destruct Hch as (_ & _ & Hm & Hmn & _ & _ & Hrest).
  simpl; constructor; [eapply IH; eassumption |].
  apply chained_bounds in Hrest.
  rewrite Forall_forall in *; intros x Hx.
  apply in_map_iff in Hx; destruct Hx as (s' & <- & Hs').
  apply Hrest in Hs'.
  apply (ascending_nth (map value clu) Hasc (seg_max s) (seg_max s'));
    [lia | |]; unfold seg_value; apply nth_error_map_value; lia.
Qed.

(** [assignCodesWithStep] returns, for every step size: values of the
    clusters, in the clusters' order. *)
Lemma assignCodesWithStep_spec (codestep : Z) (clu : list (cluster T)) :
  ascending (map value clu) ->
  exists cs,
    assignCodesWithStep codestep clu = Ok cs /\
    ascending cs /\ incl cs (map value clu).
Proof.
  intros Hasc.
  destruct (segments_total codestep clu) as (segs & _ & Hch & _ & Hcs).
  exists (map (seg_value clu) segs); split; [exact Hcs |]; split.
  - eapply chained_values_ascending; eassumption.
  - eapply chained_values_incl; eassumption.
Qed.

Lemma len_firstn_le {A : Type} (n : Z) (l : list A) :
  0 <= n -> len (firstn (Z.to_nat n) l) <= n.
Proof.
  intros Hn; unfold len; rewrite length_firstn; lia.
Qed.

(** The refinement loop returns codes that stay within the budget and
    are still values of the clusters in the clusters' order. *)
Lemma refine_loop_spec (ncodes : Z) (clu : list (cluster T)) :
  0 < ncodes ->
  ascending (map value clu) ->
  forall iters codestep codes,
    ascending codes -> incl codes (map value clu) ->
    (iters = 0%nat -> len codes <= ncodes) ->
    exists cs,
      refine_loop iters ncodes clu codestep codes = Ok cs /\
      ascending cs /\ incl cs (map value clu) /\ len cs <= ncodes.
Proof.
  intros Hn Hclu; induction iters as [| iters IH];
    intros codestep codes Hasc Hincl Hlen; simpl.
  - exists codes; auto.
  - destruct (Z.eqb_spec (len codes) ncodes) as [Heq | Hne].
    { exists codes; repeat split; auto; lia. }
    destruct (Z.gtb_spec (len codes) ncodes) as [Hgt | Hle].
    { destruct (Z.ltb_spec ncodes 0) as [| _]; [lia |].
      exists (firstn (Z.to_nat ncodes) codes); repeat split.
      - apply ascending_firstn; exact Hasc.
      - intros x Hx; apply Hincl; eapply In_firstn; exact Hx.
      - apply len_firstn_le; lia. }
    unfold int_div; destruct (Z.eqb_spec ncodes 0) as [| _]; [lia |]; simpl.
    match goal with
    | |- context [assignCodesWithStep ?st clu] =>
        destruct (assignCodesWithStep_spec st clu Hclu)
          as (next & -> & Hnasc & Hnincl); simpl;
        destruct (Z.ltb_spec (len next) ncodes) as [Hlt | Hge];
        [ apply IH; auto; lia
        | exists codes; repeat split; auto; lia ]
    end.
Qed.

Lemma assignCodesWithMinimalStep_spec (sampleSize ncodes : Z)
    (clu : list (cluster T)) :
  0 < ncodes ->
  ascending (map value clu) ->
  exists cs,
    assignCodesWithMinimalStep sampleSize ncodes clu = Ok cs /\
    ascending cs /\ incl cs (map value clu) /\ len cs <= ncodes.
Proof.
  intros Hn Hclu; unfold assignCodesWithMinimalStep, int_div.
  destruct (Z.eqb_spec ncodes 0) as [| _]; [lia |]; cbn [bind].
  match goal with
  | |- context [assignCodesWithStep ?st clu] =>
      destruct (assignCodesWithStep_spec st clu Hclu)
        as (cs0 & -> & Hasc & Hincl)
  end; cbn [bind].
  apply refine_loop_spec; auto; discriminate.
Qed.

Lemma assignCodesWithMinimalStep_zero (sampleSize : Z) (clu : list (cluster T)) :
  assignCodesWithMinimalStep sampleSize 0 clu = Panic DivideByZero.
Proof. reflexivity. Qed.

End Assign.

(** ** Construction *)

Lemma NumExactCodes_valid (m : Mode) :
  valid_mode m -> 127 <= NumExactCodes m <= 32767.
Proof. intros [-> | ->]; unfold NumExactCodes, Byte, Word; simpl; lia. Qed.

Lemma NumExactCodes_invalid (m : Mode) :
  m <> Byte -> m <> Word -> NumExactCodes m = 0.
Proof.
  intros Hb Hw; unfold NumExactCodes.
  destruct (Z.eqb_spec m Byte); [contradiction |].
  destruct (Z.eqb_spec m Word); [contradiction | reflexivity].
Qed.

Lemma NumExactCodes_cases (m : Mode) :
  NumExactCodes m = 0 \/ 127 <= NumExactCodes m <= 32767.
Proof.
  unfold NumExactCodes; destruct (m =? Byte); [right; lia |].
  destruct (m =? Word); [right; lia | left; reflexivity].
Qed.

Lemma len_zero_nil {A : Type} (l : list A) : len l = 0 <-> l = [].
Proof.
  unfold len; destruct l; simpl; split; intros; try reflexivity;
    try discriminate; lia.
Qed.

Section Construction.

Context {T : Type} `{Ordered T}.

Lemma NewDict_empty (m : Mode) :
  NewDict m [] = Ok {| mode := m; codes := [zero] |}.
Proof. reflexivity. Qed.

Lemma sorted_clusters_spec (sample : list T) :
  ascending (map value (clusters (sort_Slice sample))) /\
  (forall x, In x (map value (clusters (sort_Slice sample))) <-> In x sample).
Proof.
  destruct (clusters_spec (sort_Slice sample) (sort_Slice_nondecreasing sample))
    as [Hasc Hin].
  split; [exact Hasc |].
  intros x; rewrite Hin; apply sort_Slice_In.
Qed.

Lemma sorted_clusters_nonempty (sample : list T) :
  sample <> [] -> 0 < len (clusters (sort_Slice sample)).
Proof.
  intros Hne.
  assert (clusters (sort_Slice sample) <> []) as Hc.
  { apply clusters_nonempty; intros Hnil.
    apply Hne, length_zero_iff_nil.
    rewrite <- sort_Slice_length, Hnil; reflexivity. }
  unfold len; destruct (clusters (sort_Slice sample)); [congruence | simpl; lia].
Qed.

(** On a non-empty sample and with a positive budget, [NewDict] returns
    a dictionary of ascending sample values within the budget. *)
Lemma NewDict_nonempty (m : Mode) (sample : list T) :
  sample <> [] -> 0 < NumExactCodes m ->
  exists d,
    NewDict m sample = Ok d /\ mode d = m /\
    ascending (codes d) /\ incl (codes d) sample /\
    len (codes d) <= NumExactCodes m.
Proof.
  intros Hne Hn; unfold NewDict.
  destruct (Z.eqb_spec (len sample) 0) as [Hz | _];
    [apply len_zero_nil in Hz; contradiction |].
  destruct (sorted_clusters_spec sample) as [Hasc Hin].
  cbv zeta.
  destruct (Z.leb_spec (len (clusters (sort_Slice sample))) (NumExactCodes m))
    as [Hle | Hgt].
  - eexists; split; [reflexivity |]; simpl; repeat split; auto.
    + intros x; apply Hin.
    + unfold len in *; rewrite length_map; exact Hle.
  - destruct (assignCodesWithMinimalStep_spec (len sample) (NumExactCodes m)
                (clusters (sort_Slice sample)) Hn Hasc)
      as (cs & -> & Hcasc & Hcincl & Hclen); cbn [bind].
    eexists; split; [reflexivity |]; simpl; repeat split; auto.
    intros x Hx; apply Hin, Hcincl, Hx.
Qed.

(** With a budget of 0 every non-empty sample takes [NewDict] to the
    division [sampleSize / ncodes]. *)
Lemma NewDict_zero_budget (m : Mode) (sample : list T) :
  sample <> [] -> NumExactCodes m = 0 ->
  NewDict m sample = Panic DivideByZero.
Proof.
  intros Hne Hn; unfold NewDict.
  destruct (Z.eqb_spec (len sample) 0) as [Hz | _];
    [apply len_zero_nil in Hz; contradiction |].
  cbv zeta; rewrite Hn.
  pose proof (sorted_clusters_nonempty sample Hne) as Hpos.
  destruct (Z.leb_spec (len (clusters (sort_Slice sample))) 0); [lia |].
  reflexivity.
Qed.

(** What holds of every dictionary that [NewDict] returns. *)
Lemma constructed_inv (d : Dict T) :
  constructed d -> ascending (codes d) /\ len (codes d) <= 32767.
Proof.
  intros (m & sample & Hd).
  destruct sample as [| s sample].
  - rewrite NewDict_empty in Hd; injection Hd as <-; simpl.
    split; [repeat constructor | unfold len; simpl; lia].
  - assert (s :: sample <> []) as Hne by discriminate.
    destruct (NumExactCodes_cases m) as [Hz | Hb].
    + rewrite (NewDict_zero_budget m _ Hne Hz) in Hd; discriminate.
    + destruct (NewDict_nonempty m (s :: sample) Hne) as (d' & Hd' & _ & Hasc & Hincl & Hlen);
        [lia |].
      rewrite Hd' in Hd; injection Hd as <-.
      split; [exact Hasc | lia].
Qed.

End Construction.

(** ** Lookup *)

Lemma midpoint_bounds (i j : nat) :
  (i < j)%nat -> (i <= (i + j) / 2 < j)%nat.
Proof.
  intros Hij; split.
  - apply Nat.div_le_lower_bound; lia.
  - apply Nat.Div0.div_lt_upper_bound; lia.
Qed.

Lemma uint16_wrap_exact (i : Z) :
  0 <= i < 32767 -> uint16_wrap (2 * (i + 1)) = 2 * (i + 1).
Proof. intros Hi; unfold uint16_wrap; apply Z.mod_small; lia. Qed.

Lemma uint16_wrap_inexact (i : Z) :
  0 <= i <= 32767 ->
  uint16_wrap (uint16_wrap (2 * (i + 1)) - 1) = 2 * (i + 1) - 1.
Proof.
  intros Hi; destruct (Z.eq_dec i 32767) as [-> | Hne]; [reflexivity |].
  rewrite uint16_wrap_exact by lia.
  unfold uint16_wrap; apply Z.mod_small; lia.
Qed.

Lemma IsExact_even (k : Z) : IsExact (2 * k) = true.
Proof.
  unfold IsExact; rewrite Z.mul_comm, Z.mod_mul by lia; reflexivity.
Qed.

Lemma IsExact_odd (k : Z) : IsExact (2 * k - 1) = false.
Proof.
  unfold IsExact; replace (2 * k - 1) with (1 + (k - 1) * 2) by lia.
  rewrite Z.mod_add by lia; reflexivity.
Qed.

Section Lookup.

Context {T : Type} `{Ordered T}.

Lemma search_loop_eq fuel (f : nat -> result bool) i j :
  search_loop fuel f i j =
  if (i <? j)%nat then
    match fuel with
    | O => OutOfFuel
    | S fuel' =>
        b <- f ((i + j) / 2)%nat ;;
        if negb b then search_loop fuel' f ((i + j) / 2 + 1)%nat j
        else search_loop fuel' f i ((i + j) / 2)%nat
    end
  else Ok i.
Proof. destruct fuel; reflexivity. Qed.

(** [sort.Search] on a predicate that is monotone over [0, n): the loop
    ends and returns the least index at which the predicate holds, or
    [n]. *)
Lemma search_loop_spec (n : nat) (f : nat -> result bool) (P : nat -> bool) :
  (forall k, (k < n)%nat -> f k = Ok (P k)) ->
  (forall k k', (k <= k' < n)%nat -> P k = true -> P k' = true) ->
  forall fuel i j,
    (i <= j <= n)%nat -> (j - i <= fuel)%nat ->
    (forall k, (k < i)%nat -> P k = false) ->
    (forall k, (j <= k < n)%nat -> P k = true) ->
    exists idx,
      search_loop fuel f i j = Ok idx /\ (idx <= n)%nat /\
      (forall k, (k < idx)%nat -> P k = false) /\
      (forall k, (idx <= k < n)%nat -> P k = true).
Proof.
  intros Hf Hmono; induction fuel as [| fuel IH]; intros i j Hij Hfuel Hlo Hhi;
    rewrite search_loop_eq; destruct (Nat.ltb_spec i j) as [Hlt | Hge];
    try lia;
    try (exists i; repeat split; auto; try lia;
         intros k Hk; apply Hhi; lia).
  pose proof (midpoint_bounds i j Hlt) as Hh.
  rewrite Hf by lia; cbn [bind].
  destruct (P ((i + j) / 2)%nat) eqn:HP; cbn [negb].
  - apply IH; auto; try lia.
    intros k Hk; apply (Hmono ((i + j) / 2)%nat k); [lia | exact HP].
  - apply IH; auto; try lia.
    intros k Hk; destruct (P k) eqn:HPk; [| reflexivity].
    rewrite <- HP; symmetry.
    apply (Hmono k ((i + j) / 2)%nat); [lia | exact HPk].
Qed.

(** What [Encode] returns on an ascending dictionary of at most 32767
    values: the position [idx] of the first value not below the query,
    and the code [2*(idx+1)] if that value is the query, [2*(idx+1)-1]
    otherwise. *)
Lemma Encode_spec (d : Dict T) (v : T) :
  ascending (codes d) -> len (codes d) <= 32767 ->
  exists idx,
    (idx <= length (codes d))%nat /\
    (forall k c, (k < idx)%nat -> nth_error (codes d) k = Some c -> lt c v) /\
    (forall k c, (idx <= k)%nat -> nth_error (codes d) k = Some c -> le v c) /\
    ((nth_error (codes d) idx = Some v /\
      Encode d v = Ok (2 * (Z.of_nat idx + 1))) \/
     (nth_error (codes d) idx <> Some v /\
      Encode d v = Ok (2 * (Z.of_nat idx + 1) - 1))).
Proof.
  intros Hasc Hlen; unfold Encode, sort_Search.
  set (cs := codes d) in *.
  set (P := fun k => is_nonneg (cmp_Compare (nth k cs zero) v)).
  destruct (search_loop_spec (length cs)
              (fun i => c <- index cs i ;; Ok (is_nonneg (cmp_Compare c v))) P)
    with (fuel := length cs) (i := 0%nat) (j := length cs)
    as (idx & -> & Hidx & Hlo & Hhi); try lia.
  - intros k Hk; rewrite (index_lt cs k zero Hk); reflexivity.
  - intros k k' Hk; unfold P; rewrite !is_nonneg_true; intros Hv.
    destruct (Nat.eq_dec k k') as [<- | Hne]; [exact Hv |].
    eapply le_trans; [exact Hv |]; apply lt_le.
    apply (ascending_nth cs Hasc k k'); try lia; apply nth_error_nth'; lia.
  - cbn [bind]; exists idx; split; [exact Hidx |].
    assert (forall k c, (k < idx)%nat -> nth_error cs k = Some c -> lt c v) as Hlo'.
    { intros k c Hk Hc; apply is_nonneg_false.
      specialize (Hlo k Hk); unfold P in Hlo.
      rewrite (nth_error_nth cs k zero Hc) in Hlo; exact Hlo. }
    assert (forall k c, (idx <= k)%nat -> nth_error cs k = Some c -> le v c) as Hhi'.
    { intros k c Hk Hc; apply is_nonneg_true.
      assert (k < length cs)%nat as Hkn
        by (apply nth_error_Some; rewrite Hc; discriminate).
      specialize (Hhi k (conj Hk Hkn)); unfold P in Hhi.
      rewrite (nth_error_nth cs k zero Hc) in Hhi; exact Hhi. }
    split; [exact Hlo' |]; split; [exact Hhi' |].
    unfold len in *.
    destruct (Z.leb_spec (Z.of_nat (length cs)) (Z.of_nat idx)) as [Hout | Hin].
    + right; split.
      * assert (nth_error cs idx = None) as -> by (apply nth_error_None; lia).
        discriminate.
      * rewrite uint16_wrap_inexact by lia; reflexivity.
    + rewrite (index_lt cs idx zero) by lia; cbn [bind].
      assert (nth_error cs idx = Some (nth idx cs zero)) as Hnth
        by (apply nth_error_nth'; lia).
      destruct (is_zero (cmp_Compare (nth idx cs zero) v)) eqn:Hz; cbn [negb].
      * left; apply is_zero_true in Hz; rewrite Hnth, Hz; split; [reflexivity |].
        rewrite uint16_wrap_exact by lia; reflexivity.
      * right; split.
        -- rewrite Hnth; intros Hv; injection Hv as Hv.
           rewrite Hv, cmp_Compare_refl in Hz; discriminate.
        -- rewrite uint16_wrap_inexact by lia; reflexivity.
Qed.

End Lookup.

(** ** Memory *)

Lemma update_nth_last {A : Type} (l : list A) (a x : A) :
  update_nth (length l) x (l ++ [a]) = l ++ [x].
Proof. induction l as [| y l IH]; simpl; [| rewrite IH]; reflexivity. Qed.

Lemma nth_app_last {A : Type} (l : list A) (a d : A) :
  nth (length l) (l ++ [a]) d = a.
Proof. rewrite app_nth2, Nat.sub_diag by lia; reflexivity. Qed.

Section Memory.

Context {T : Type} `{Ordered T}.

Lemma load_length (h : heap T) (s : slice) :
  valid_slice h s -> length (load h s) = size s.
Proof.
  intros [_ Hs]; unfold load; rewrite length_firstn, length_skipn; lia.
Qed.

(** The slice [alloc] returns holds the values it was given. *)
Lemma load_newest (h : heap T) (vs : list T) :
  load (h ++ [vs]) {| base := length h; off := 0; size := length vs |} = vs.
Proof.
  unfold load; simpl; rewrite nth_app_last; apply firstn_all.
Qed.

Lemma load_alloc (h : heap T) (vs : list T) :
  load (fst (alloc h vs)) (snd (alloc h vs)) = vs.
Proof. apply load_newest. Qed.

(** Older slices do not see an allocation. *)
Lemma load_app (h ext : heap T) (s : slice) :
  (base s < length h)%nat -> load (h ++ ext) s = load h s.
Proof. intros Hs; unfold load; rewrite app_nth1 by exact Hs; reflexivity. Qed.

(** Writing through the slice of the newest array replaces that array
    and nothing else. *)
Lemma store_newest (h : heap T) (a vs : list T) :
  store (h ++ [a]) {| base := length h; off := 0; size := length a |} vs =
  h ++ [vs].
Proof.
  unfold store; simpl.
  rewrite nth_error_app2, Nat.sub_diag by lia; simpl.
  rewrite skipn_all, app_nil_r; apply update_nth_last.
Qed.

(** A write is seen through the slice it goes through: the heap does
    record what is done to a caller's array. *)
Lemma load_store_newest (h : heap T) (a vs : list T) :
  length vs = length a ->
  load (store (h ++ [a]) {| base := length h; off := 0; size := length a |} vs)
       {| base := length h; off := 0; size := length a |} = vs.
Proof.
  intros Hl; rewrite store_newest; unfold load; simpl.
  rewrite nth_app_last, <- Hl; apply firstn_all.
Qed.

(** The heap after [NewDict]: the heap before, then the sorted copy of
    the sample, then the array of the codes. *)
Lemma NewDict_mem_heap (m : Mode) (sample : slice) (h : heap T) :
  exists ext, fst (NewDict_mem m sample h) = h ++ ext.
Proof.
  unfold NewDict_mem.
  destruct (Z.of_nat (size sample) =? 0); [exists [[zero]]; reflexivity |].
  unfold alloc; rewrite store_newest.
  destruct (len _ <=? NumExactCodes m).
  - eexists; simpl; rewrite <- app_assoc; reflexivity.
  - destruct (assignCodesWithMinimalStep _ _ _); simpl;
      eexists; try rewrite <- app_assoc; reflexivity.
Qed.

(** [NewDict] on the heap computes what [NewDict] on the sample's
    values computes. *)
Lemma NewDict_mem_refines (m : Mode) (sample : slice) (h : heap T) :
  valid_slice h sample ->
  match snd (NewDict_mem m sample h), NewDict m (load h sample) with
  | Ok dm, Ok d =>
      mem_mode dm = mode d /\
      load (fst (NewDict_mem m sample h)) (mem_codes dm) = codes d
  | Panic p, Panic q => p = q
  | OutOfFuel, OutOfFuel => True
  | _, _ => False
  end.
Proof.
  intros Hv; pose proof (load_length h sample Hv) as Hlen.
  unfold NewDict_mem, alloc.
  rewrite load_newest, load_store_newest by apply sort_Slice_length.
  unfold NewDict, len; rewrite Hlen.
  destruct (Z.of_nat (size sample) =? 0);
    [split; [reflexivity | apply (load_newest h [zero])] |].
  cbv zeta.
  destruct (Z.of_nat (length (clusters (sort_Slice (load h sample)))) <=?
            NumExactCodes m).
  - simpl; split; [reflexivity |].
    apply (load_newest (store _ _ _)).
  - destruct (assignCodesWithMinimalStep _ _ _) as [cs | p |]; simpl; auto.
    split; [reflexivity |]. apply (load_newest (store _ _ _)).
Qed.

End Memory.

(** ** Distinct values *)

Section Distinct.

Context {T : Type} `{Ordered T}.

Lemma eqb_true (x y : T) : eqb x y = true <-> x = y.
Proof. apply is_zero_true. Qed.

Lemma distinct_In (l : list T) (x : T) : In x (distinct l) <-> In x l.
Proof.
  induction l as [| a l IH]; simpl; [tauto |].
  rewrite filter_In, IH; split.
  - tauto.
  - intros [-> | Hx]; [left; reflexivity |].
    destruct (eqb x a) eqn:He; [left; symmetry; apply eqb_true, He |].
    right; split; [exact Hx | reflexivity].
Qed.

Lemma distinct_NoDup (l : list T) : NoDup (distinct l).
Proof.
  induction l as [| a l IH]; simpl; constructor.
  - rewrite filter_In; intros [_ Ha].
    rewrite (proj2 (eqb_true a a) eq_refl) in Ha; discriminate.
  - apply NoDup_filter; exact IH.
Qed.

Lemma ascending_nondecreasing (l : list T) : ascending l -> nondecreasing l.
Proof.
  induction 1 as [| a l Hs IH Ha]; constructor; auto.
  revert Ha; apply Forall_impl; intros; apply lt_le; assumption.
Qed.

(** The cluster values of the sorted sample are its distinct values in
    ascending order. *)
Lemma sorted_clusters_distinct (sample : list T) :
  map value (clusters (sort_Slice sample)) = sort_Slice (distinct sample).
Proof.
  destruct (sorted_clusters_spec sample) as [Hasc Hin].
  apply sort_Slice_unique; [apply ascending_nondecreasing, Hasc |].
  apply NoDup_Permutation.
  - apply distinct_NoDup.
  - apply ascending_NoDup, Hasc.
  - intros x; rewrite distinct_In, Hin; tauto.
Qed.

(** A value of an ascending dictionary encodes to the exact code of its
    position. *)
Lemma Encode_at (d : Dict T) (i : nat) (v : T) :
  ascending (codes d) -> len (codes d) <= 32767 ->
  nth_error (codes d) i = Some v ->
  Encode d v = Ok (2 * (Z.of_nat i + 1)).
Proof.
  intros Hasc Hlen Hi.
  destruct (Encode_spec d v Hasc Hlen) as (idx & Hidx & Hlo & Hhi & Hres).
  assert (idx = i) as ->.
  { destruct (Nat.lt_trichotomy i idx) as [Hlt | [Heq | Hgt]]; [| auto |].
    - exfalso; exact (lt_irrefl v (Hlo i v Hlt Hi)).
    - exfalso.
      assert (idx < length (codes d))%nat as Hin.
      { assert (i < length (codes d))%nat
          by (apply nth_error_Some; rewrite Hi; discriminate).
        lia. }
      pose proof (nth_error_nth' (codes d) zero Hin) as Hc.
      apply (lt_irrefl v), (le_lt_trans _ (nth idx (codes d) zero)).
      + apply (Hhi idx); [lia | exact Hc].
      + exact (ascending_nth _ Hasc idx i _ _ Hgt Hc Hi). }
  destruct Hres as [[_ He] | [Hn _]]; [exact He | contradiction].
Qed.

End Distinct.

(** ** Segment boundaries *)

Lemma chained_split (n : nat) (s : nat * nat * nat) (post : list (nat * nat * nat)) :
  forall pre f, chained n f (pre ++ s :: post) ->
    (f <= seg_first s)%nat /\
    Forall (fun p => (seg_max p <= seg_last p < seg_first s)%nat) pre /\
    chained n (seg_first s) (s :: post).
Proof.
  induction pre as [| p pre IH]; intros f Hch.
  - simpl in Hch; destruct Hch as (Hf & Hrest); subst f.
    split; [lia |]; split; [constructor |].
    simpl; split; [reflexivity | exact Hrest].
  - simpl in Hch; destruct Hch as (Hf & _ & Hm & _ & _ & _ & Hrest).
    apply IH in Hrest; destruct Hrest as (Hle & Hpre & Hs).
    split; [lia |]; split; [| exact Hs].
    constructor; [lia | exact Hpre].
Qed.

(** * The specified properties *)

Section Specified.

Context {T : Type} `{Ordered T}.

(** C1. [Encode] is monotonic: on every dictionary that [NewDict]
    returned, and for all query values [a <= b] in the order of the value
    type, [Encode] returns a code for each (no panic) and the code of [a]
    is at most the code of [b]. *)
Theorem Encode_monotonic (d : Dict T) (a b : T) :
  constructed d -> le a b ->
  exists ca cb,
    Encode d a = Ok ca /\ Encode d b = Ok cb /\ ca <= cb.
Proof.
  intros Hd Hab; destruct (constructed_inv d Hd) as [Hasc Hlen].
  destruct (Encode_spec d a Hasc Hlen) as (ia & Hia & Hloa & Hhia & Hra).
  destruct (Encode_spec d b Hasc Hlen) as (ib & Hib & Hlob & Hhib & Hrb).
  assert (ia <= ib)%nat as Hle.
  { destruct (Nat.le_gt_cases ia ib) as [Hle | Hgt]; [exact Hle | exfalso].
    assert (ib < length (codes d))%nat as Hin by lia.
    pose proof (nth_error_nth' (codes d) zero Hin) as Hc.
    apply (lt_irrefl a), (le_lt_trans _ b); [exact Hab |].
    apply (le_lt_trans _ (nth ib (codes d) zero)).
    - apply (Hhib ib); [lia | exact Hc].
    - apply (Hloa ib); [exact Hgt | exact Hc]. }
  destruct Hra as [[Hfa ->] | [Hna ->]], Hrb as [[Hfb ->] | [Hnb ->]];
    do 2 eexists; repeat split; try reflexivity; try lia.
  (* [a] is in the dictionary and [b] is not: then [a] lies below [b]'s
     position. *)
  destruct (Nat.eq_dec ia ib) as [<- | Hne]; [| lia].
  exfalso; apply Hnb; rewrite Hfa; f_equal.
  apply le_antisym; [exact Hab |].
  apply (Hhib ia); [lia | exact Hfa].
Qed.

(** C2. On every dictionary that [NewDict] returned and for every query
    value [v], the code that [Encode] returns is exact (even) if and only
    if [v] is one of the dictionary's representative values. *)
Theorem Encode_exact_iff (d : Dict T) (v : T) :
  constructed d ->
  exists c, Encode d v = Ok c /\ (IsExact c = true <-> In v (codes d)).
Proof.
  intros Hd; destruct (constructed_inv d Hd) as [Hasc Hlen].
  destruct (Encode_spec d v Hasc Hlen) as (idx & Hidx & Hlo & Hhi & Hres).
  destruct Hres as [[Hf He] | [Hn He]]; rewrite He; eexists;
    (split; [reflexivity |]).
  - rewrite IsExact_even; split; [intros _ | reflexivity].
    eapply nth_error_In; exact Hf.
  - rewrite IsExact_odd; split; [discriminate | intros Hin; exfalso].
    apply In_nth_error in Hin; destruct Hin as [i Hi].
    pose proof (Encode_at d i v Hasc Hlen Hi) as He'.
    rewrite He in He'.
    assert (2 * (Z.of_nat idx + 1) - 1 = 2 * (Z.of_nat i + 1)) by congruence.
    lia.
Qed.

(** C3. For every valid mode and every sample (empty, or with more
    distinct values than the budget), [NewDict] returns a dictionary and
    its [Len()] is at most the mode's exact-code budget. *)
Theorem NewDict_Len_le_budget (m : Mode) (sample : list T) :
  valid_mode m ->
  NumExactCodes Byte = 127 /\ NumExactCodes Word = 32767 /\
  exists d, NewDict m sample = Ok d /\ Len d <= NumExactCodes m.
Proof.
  intros Hm; pose proof (NumExactCodes_valid m Hm) as Hn.
  split; [reflexivity |]; split; [reflexivity |].
  destruct sample as [| s sample].
  - rewrite NewDict_empty; eexists; split; [reflexivity |].
    unfold Len, len; simpl; lia.
  - destruct (NewDict_nonempty m (s :: sample)) as (d & Hd & _ & _ & _ & Hlen);
      [discriminate | lia |].
    exists d; split; assumption.
Qed.

(** C4. For every valid mode and every sample, the representative values
    of the dictionary that [NewDict] returns are strictly ascending in the
    order of the value type, and no value occurs twice; so it is on the
    direct path and on the adaptive path. *)
Theorem NewDict_codes_ascending (m : Mode) (sample : list T) :
  valid_mode m ->
  exists d,
    NewDict m sample = Ok d /\ ascending (codes d) /\ NoDup (codes d).
Proof.
  intros Hm; pose proof (NumExactCodes_valid m Hm) as Hn.
  assert (exists d, NewDict m sample = Ok d /\ ascending (codes d))
    as (d & Hd & Hasc).
  { destruct sample as [| s sample].
    - rewrite NewDict_empty; eexists; split; [reflexivity |].
      repeat constructor.
    - destruct (NewDict_nonempty m (s :: sample)) as (d & Hd & _ & Hasc & _);
        [discriminate | lia |].
      exists d; split; assumption. }
  exists d; split; [exact Hd |]; split; [exact Hasc |].
  apply ascending_NoDup, Hasc.
Qed.

(** C5. [NumExactCodes] is 0 for every mode other than [Byte] and
    [Word]; with such a mode [NewDict] still accepts the empty sample,
    and on every non-empty sample it reaches
    [assignCodesWithMinimalStep] with [ncodes = 0], whose first
    statement, the division [sampleSize / ncodes], panics with a
    division by zero: that panic is the outcome of [NewDict]. *)
Theorem unrecognized_mode_divides_by_zero (m : Mode) :
  m <> Byte -> m <> Word ->
  NumExactCodes m = 0 /\
  NewDict m ([] : list T) = Ok {| mode := m; codes := [zero] |} /\
  forall sample : list T, sample <> [] ->
    int_div (len sample) (NumExactCodes m) = Panic DivideByZero /\
    assignCodesWithMinimalStep (len sample) (NumExactCodes m)
      (clusters (sort_Slice sample)) = Panic DivideByZero /\
    NewDict m sample = Panic DivideByZero.
Proof.
  intros Hb Hw; pose proof (NumExactCodes_invalid m Hb Hw) as Hn.
  split; [exact Hn |]; split; [reflexivity |].
  intros sample Hne; rewrite Hn; repeat split.
  apply NewDict_zero_budget; assumption.
Qed.

(** C7. For every valid mode and every non-empty sample with at most as
    many distinct values as the mode's budget, the dictionary holds the
    distinct values of the sample in ascending order, every sample value
    among them, and the value at position [i] (from 0) encodes to the
    exact code [2*(i+1)]: 2, 4, 6, ... in ascending order of the
    values. *)
Theorem few_distinct_values_exact (m : Mode) (sample : list T) :
  valid_mode m -> sample <> [] ->
  len (distinct sample) <= NumExactCodes m ->
  exists d,
    NewDict m sample = Ok d /\
    codes d = sort_Slice (distinct sample) /\
    ascending (codes d) /\
    (forall v, In v sample -> In v (codes d)) /\
    (forall i v, nth_error (codes d) i = Some v ->
       Encode d v = Ok (2 * (Z.of_nat i + 1)) /\
       IsExact (2 * (Z.of_nat i + 1)) = true).
Proof.
  intros Hm Hne Hdist; pose proof (NumExactCodes_valid m Hm) as Hn.
  pose proof (sorted_clusters_distinct sample) as Hcl.
  destruct (sorted_clusters_spec sample) as [Hasc Hin].
  assert (NewDict m sample =
          Ok {| mode := m; codes := sort_Slice (distinct sample) |}) as Hd.
  { unfold NewDict.
    destruct (Z.eqb_spec (len sample) 0) as [Hz | _];
      [apply len_zero_nil in Hz; contradiction |].
    cbv zeta.
    destruct (Z.leb_spec (len (clusters (sort_Slice sample))) (NumExactCodes m))
      as [_ | Hgt]; [rewrite Hcl; reflexivity | exfalso].
    revert Hgt; unfold len in *.
    rewrite <- (length_map value), Hcl, sort_Slice_length; lia. }
  eexists; split; [exact Hd |]; simpl; rewrite <- Hcl.
  split; [reflexivity |]; split; [exact Hasc |]; split.
  - intros v Hv; apply Hin, Hv.
  - intros i v Hi; split; [| apply IsExact_even].
    apply Encode_at; simpl; rewrite <- ?Hcl; auto.
    unfold len in *; rewrite Hcl, sort_Slice_length; lia.
Qed.

(** C8. For every valid mode [NewDict] returns a dictionary on the empty
    sample: it has [Len() == 1], its one representative is the zero
    value of the type, which encodes to 2; every value below the zero
    value encodes to 1 and every value above it to 3. *)
Theorem empty_sample_dictionary (m : Mode) :
  valid_mode m ->
  exists d,
    NewDict m ([] : list T) = Ok d /\
    Len d = 1 /\ codes d = [zero] /\
    Encode d zero = Ok 2 /\
    (forall v, lt v zero -> Encode d v = Ok 1) /\
    (forall v, lt zero v -> Encode d v = Ok 3).
Proof.
  intros _; eexists; split; [apply NewDict_empty |].
  split; [reflexivity |]; split; [reflexivity |].
  unfold Encode, sort_Search; simpl; unfold lt.
  split; [| split; intros v Hv].
  - rewrite cmp_Compare_refl; simpl.
    rewrite cmp_Compare_refl; reflexivity.
  - rewrite (cmp_Compare_antisym v zero), Hv; simpl.
    rewrite (cmp_Compare_antisym v zero), Hv; reflexivity.
  - rewrite Hv; reflexivity.
Qed.

(** C10. For every valid mode and every non-empty sample, every
    representative value of the dictionary that [NewDict] returns occurs
    in the sample. *)
Theorem NewDict_codes_from_sample (m : Mode) (sample : list T) :
  valid_mode m -> sample <> [] ->
  exists d,
    NewDict m sample = Ok d /\ forall v, In v (codes d) -> In v sample.
Proof.
  intros Hm Hne; pose proof (NumExactCodes_valid m Hm) as Hn.
  destruct (NewDict_nonempty m sample Hne) as (d & Hd & _ & _ & Hincl & _);
    [lia |].
  exists d; split; [exact Hd | exact Hincl].
Qed.

(** C6. In [assignCodesWithStep], whose codes are the values of its
    segments' representatives, when a segment closes after it
    accumulated the clusters up to and including the index [lastIdx-1],
    the next segment begins at [lastIdx+1] (or the loop ends, for want of
    clusters): the cluster at [lastIdx] belongs to no segment, its index
    is never the index of a representative, and its value is not among
    the codes returned. *)
Theorem boundary_cluster_skipped (codestep : Z) (clu : list (cluster T))
    (pre post : list (nat * nat * nat)) (s : nat * nat * nat) :
  segments codestep clu = Ok (pre ++ s :: post) ->
  (seg_first s < seg_last s)%nat ->
  assignCodesWithStep codestep clu =
    Ok (map (seg_value clu) (pre ++ s :: post)) /\
  (seg_first s <= seg_max s < seg_last s)%nat /\
  match post with
  | [] => (length clu <= seg_last s + 1)%nat
  | s' :: _ => seg_first s' = (seg_last s + 1)%nat
  end /\
  Forall (fun s' => ~ (seg_first s' <= seg_last s < seg_last s')%nat /\
                    seg_max s' <> seg_last s) (pre ++ s :: post) /\
  (ascending (map value clu) ->
   forall c codes,
     nth_error clu (seg_last s) = Some c ->
     assignCodesWithStep codestep clu = Ok codes ->
     ~ In (value c) codes).
Proof.
  intros Hsegs Hacc.
  destruct (segments_total codestep clu) as (segs & Hs & Hch & _ & Hcodes).
  rewrite Hsegs in Hs; injection Hs as <-.
  split; [exact Hcodes |].
  destruct (chained_split _ _ _ _ _ Hch) as (_ & Hpre & Hspost).
  pose proof Hspost as Hspost'.
  simpl in Hspost'; destruct Hspost' as (_ & _ & Hm & _ & _ & Hmax & Hpost).
  pose proof (chained_bounds _ _ _ Hpost) as Hpb.
  assert (Forall (fun s' => ~ (seg_first s' <= seg_last s < seg_last s')%nat /\
                            seg_max s' <> seg_last s) (pre ++ s :: post)) as Hall.
  { apply Forall_app; split; [| constructor].
    - revert Hpre; apply Forall_impl; intros; lia.
    - specialize (Hmax Hacc); lia.
    - revert Hpb; apply Forall_impl; intros; lia. }
  split; [specialize (Hmax Hacc); lia |].
  split; [| split; [exact Hall |]].
  - destruct post as [| s' post]; simpl in Hpost; [lia | tauto].
  - intros Hasc c codes Hc Hcs Hin.
    rewrite Hcodes in Hcs; injection Hcs as <-.
    apply in_map_iff in Hin; destruct Hin as (s' & Hv & Hs').
    rewrite Forall_forall in Hall; destruct (Hall s' Hs') as [_ Hne].
    apply Hne.
    pose proof (chained_bounds _ _ _ Hch) as Hb; rewrite Forall_forall in Hb.
    specialize (Hb s' Hs').
    assert (seg_last s < length clu)%nat as Hl
      by (apply nth_error_Some; rewrite Hc; discriminate).
    apply (proj1 (NoDup_nth_error (map value clu)) (ascending_NoDup _ Hasc));
      [rewrite length_map; lia |].
    rewrite (nth_error_map_value clu (seg_max s')) by lia.
    rewrite nth_error_map, Hc; simpl; f_equal; exact Hv.
Qed.

End Specified.

Section Frame.

Context {T : Type} `{Ordered T}.

(** C9. [NewDict] does not write to the caller's sample: whatever the
    mode, the sample slice holds the same values at the same positions
    after the call as before, and so does every array that existed
    before the call; what [NewDict] sorts is a copy in an array of its
    own. *)
Theorem NewDict_keeps_sample (m : Mode) (sample : slice) (h : heap T) :
  valid_slice h sample ->
  let h' := fst (NewDict_mem m sample h) in
  load h' sample = load h sample /\
  (forall b, (b < length h)%nat -> nth_error h' b = nth_error h b) /\
  (size sample <> 0%nat ->
   nth_error h' (length h) = Some (sort_Slice (load h sample))).
Proof.
  intros [Hb Hs]; cbv zeta.
  destruct (NewDict_mem_heap m sample h) as [ext Hext].
  split; [| split].
  - rewrite Hext; apply load_app, Hb.
  - intros b Hlt; rewrite Hext; apply nth_error_app1, Hlt.
  - intros Hne; unfold NewDict_mem.
    destruct (Z.eqb_spec (Z.of_nat (size sample)) 0) as [Hz | _]; [lia |].
    unfold alloc; rewrite load_newest, store_newest.
    destruct (len _ <=? NumExactCodes m);
      [| destruct (assignCodesWithMinimalStep _ _ _)]; simpl;
      rewrite <- ?app_assoc; rewrite nth_error_app2 by lia;
      rewrite Nat.sub_diag; reflexivity.
Qed.

End Frame.

(** * Samples of Go's [int]

    Runs of the code on concrete samples of [int] values, and the
    theorems above applied to them. *)

Section IntSamples.

(** Three distinct values, on the direct path. *)
Example NewDict_direct :
  NewDict Byte [3; 1; 2; 3; 3; 1] = Ok {| mode := Byte; codes := [1; 2; 3] |}.
Proof. reflexivity. Qed.

Example Encode_direct :
  map (Encode {| mode := Byte; codes := [1; 2; 3] |}) [0; 1; 2; 3; 4] =
  [Ok 1; Ok 2; Ok 4; Ok 6; Ok 7].
Proof. reflexivity. Qed.

(** 128 distinct values are one more than [Byte] has codes for: the
    adaptive path.  The step is [128 / 127 = 1], every segment takes one
    cluster and skips the next, which leaves the 64 even values; the
    refined step is 0, gives 128 codes and is not taken. *)
Example NewDict_adaptive :
  NewDict Byte (ints 128) =
  Ok {| mode := Byte; codes := map (fun i => 2 * Z.of_nat i) (seq 0 64) |}.
Proof. vm_compute; reflexivity. Qed.

Example segments_step3 :
  segments 3 (clusters (ints 10)) =
  Ok [(0, 3, 0); (4, 7, 4); (8, 10, 8)]%nat.
Proof. vm_compute; reflexivity. Qed.

Example assignCodesWithStep_step3 :
  assignCodesWithStep 3 (clusters (ints 10)) = Ok [0; 4; 8].
Proof. vm_compute; reflexivity. Qed.

(** With a step of 0 a segment accumulates nothing and its
    representative is the cluster the loop is at: every cluster is
    emitted. *)
Example assignCodesWithStep_step0 :
  assignCodesWithStep 0 (clusters (ints 10)) = Ok (ints 10).
Proof. vm_compute; reflexivity. Qed.

Lemma Encode_monotonic_witness :
  exists ca cb,
    Encode {| mode := Byte; codes := [1; 2; 3] |} 0 = Ok ca /\
    Encode {| mode := Byte; codes := [1; 2; 3] |} 2 = Ok cb /\ ca <= cb.
Proof.
  apply (Encode_monotonic {| mode := Byte; codes := [1; 2; 3] |} 0 2).
  - exists Byte, [3; 1; 2; 3; 3; 1]; reflexivity.
  - unfold le; simpl; discriminate.
Defined.

Lemma Encode_exact_iff_witness :
  exists c,
    Encode {| mode := Byte; codes := [1; 2; 3] |} 2 = Ok c /\
    (IsExact c = true <-> In 2 [1; 2; 3]).
Proof.
  apply (Encode_exact_iff {| mode := Byte; codes := [1; 2; 3] |} 2).
  exists Byte, [3; 1; 2; 3; 3; 1]; reflexivity.
Defined.

Lemma NewDict_Len_le_budget_witness :
  NumExactCodes Byte = 127 /\ NumExactCodes Word = 32767 /\
  exists d, NewDict Byte (ints 128) = Ok d /\ Len d <= NumExactCodes Byte.
Proof.
  apply (NewDict_Len_le_budget Byte (ints 128)).
  left; reflexivity.
Defined.

Lemma NewDict_codes_ascending_witness :
  exists d,
    NewDict Byte (ints 130) = Ok d /\ ascending (codes d) /\ NoDup (codes d).
Proof.
  apply (NewDict_codes_ascending Byte (ints 130)).
  left; reflexivity.
Defined.

Lemma unrecognized_mode_divides_by_zero_witness :
  NumExactCodes 2 = 0 /\
  NewDict 2 ([] : list Z) = Ok {| mode := 2; codes := [zero] |} /\
  forall sample : list Z, sample <> [] ->
    int_div (len sample) (NumExactCodes 2) = Panic DivideByZero /\
    assignCodesWithMinimalStep (len sample) (NumExactCodes 2)
      (clusters (sort_Slice sample)) = Panic DivideByZero /\
    NewDict 2 sample = Panic DivideByZero.
Proof.
  apply (unrecognized_mode_divides_by_zero (T := Z) 2);
    unfold Byte, Word; discriminate.
Defined.

Lemma boundary_cluster_skipped_witness :
  assignCodesWithStep 3 (clusters (ints 10)) =
    Ok (map (seg_value (clusters (ints 10)))
          [(0, 3, 0); (4, 7, 4); (8, 10, 8)]%nat) /\
  (0 <= 0 < 3)%nat /\
  (4 = 3 + 1)%nat /\
  Forall (fun s' => ~ (seg_first s' <= 3 < seg_last s')%nat /\ seg_max s' <> 3%nat)
    [(0, 3, 0); (4, 7, 4); (8, 10, 8)]%nat /\
  (ascending (map value (clusters (ints 10))) ->
   forall c codes,
     nth_error (clusters (ints 10)) 3 = Some c ->
     assignCodesWithStep 3 (clusters (ints 10)) = Ok codes ->
     ~ In (value c) codes).
Proof.
  apply (boundary_cluster_skipped 3 (clusters (ints 10))
           [] [(4, 7, 4); (8, 10, 8)]%nat (0, 3, 0)%nat).
  - vm_compute; reflexivity.
  - unfold seg_first, seg_last; simpl; lia.
Defined.

Lemma few_distinct_values_exact_witness :
  exists d,
    NewDict Byte [3; 1; 2; 3; 3; 1] = Ok d /\
    codes d = sort_Slice (distinct [3; 1; 2; 3; 3; 1]) /\
    ascending (codes d) /\
    (forall v, In v [3; 1; 2; 3; 3; 1] -> In v (codes d)) /\
    (forall i v, nth_error (codes d) i = Some v ->
       Encode d v = Ok (2 * (Z.of_nat i + 1)) /\
       IsExact (2 * (Z.of_nat i + 1)) = true).
Proof.
  apply (few_distinct_values_exact Byte [3; 1; 2; 3; 3; 1]).
  - left; reflexivity.
  - discriminate.
  - vm_compute; discriminate.
Defined.

Lemma empty_sample_dictionary_witness :
  exists d,
    NewDict Byte ([] : list Z) = Ok d /\
    Len d = 1 /\ codes d = [0] /\
    Encode d 0 = Ok 2 /\
    (forall v, lt v 0 -> Encode d v = Ok 1) /\
    (forall v, lt 0 v -> Encode d v = Ok 3).
Proof.
  refine (empty_sample_dictionary (T := Z) Byte _).
  left; reflexivity.
Defined.

Lemma NewDict_keeps_sample_witness :
  let h := [[7; 3; 1; 2; 9]] in
  let sample := {| base := 0; off := 1; size := 3 |} in
  let h' := fst (NewDict_mem Byte sample h) in
  load h' sample = [3; 1; 2] /\
  (forall b, (b < 1)%nat -> nth_error h' b = nth_error h b) /\
  (3%nat <> 0%nat -> nth_error h' 1 = Some [1; 2; 3]).
Proof.
  refine (NewDict_keeps_sample Byte {| base := 0; off := 1; size := 3 |}
            [[7; 3; 1; 2; 9]] _).
  unfold valid_slice; simpl; lia.
Defined.

Lemma NewDict_codes_from_sample_witness :
  exists d,
    NewDict Byte (ints 128) = Ok d /\
    forall v, In v (codes d) -> In v (ints 128).
Proof.
  apply (NewDict_codes_from_sample Byte (ints 128)).
  - left; reflexivity.
  - vm_compute; discriminate.
Defined.

End IntSamples.

(** * Further properties *)

(** ** Lookup on any dictionary *)

Section LookupMore.

Context {T : Type} `{Ordered T}.

(** [sort.Search] ends on every predicate that does not panic below
    [n], monotone or not. *)
Lemma search_loop_total (n : nat) (f : nat -> result bool) :
  (forall k, (k < n)%nat -> exists b, f k = Ok b) ->
  forall fuel i j,
    (i <= j <= n)%nat -> (j - i <= fuel)%nat ->
    exists idx, search_loop fuel f i j = Ok idx /\ (i <= idx <= j)%nat.
Proof.
  intros Hf; induction fuel as [| fuel IH]; intros i j Hij Hfuel;
    rewrite search_loop_eq; destruct (Nat.ltb_spec i j) as [Hlt | Hge];
    try lia; try (exists i; split; [reflexivity | lia]).
  pose proof (midpoint_bounds i j Hlt) as Hh.
  destruct (Hf ((i + j) / 2)%nat) as [b ->]; [lia |]; cbn [bind].
  destruct b; cbn [negb].
  - destruct (IH i ((i + j) / 2)%nat) as (idx & -> & Hidx); try lia.
    exists idx; split; [reflexivity | lia].
  - destruct (IH ((i + j) / 2 + 1)%nat j) as (idx & -> & Hidx); try lia.
    exists idx; split; [reflexivity | lia].
Qed.

Lemma uint16_wrap_range (z : Z) : 0 <= uint16_wrap z <= 65535.
Proof.
  unfold uint16_wrap; pose proof (Z.mod_pos_bound z 65536); lia.
Qed.

Lemma member_In (v : T) (l : list T) : member v l = true <-> In v l.
Proof.
  unfold member; rewrite existsb_exists; split.
  - intros (x & Hx & He); apply eqb_true in He; subst; exact Hx.
  - intros Hv; exists v; split; [exact Hv | apply eqb_true; reflexivity].
Qed.

(** The values below [v] in a list split at [idx] into values below
    [v] and values not below it. *)
Lemma below_split (v : T) :
  forall l idx,
    (idx <= length l)%nat ->
    (forall k c, (k < idx)%nat -> nth_error l k = Some c -> lt c v) ->
    (forall k c, (idx <= k)%nat -> nth_error l k = Some c -> le v c) ->
    below v l = Z.of_nat idx.
Proof.
  unfold below, len; induction l as [| a l IH]; intros idx Hidx Hlo Hhi;
    simpl in *.
  - f_equal; lia.
  - destruct idx as [| idx].
    + rewrite (proj2 (cmp_Less_false a v) (Hhi 0%nat a (Nat.le_refl _) eq_refl)).
      apply (IH 0%nat); [lia | intros; lia |].
      intros k c _ Hc; apply (Hhi (S k) c); [lia | exact Hc].
    + rewrite (proj2 (cmp_Less_true a v) (Hlo 0%nat a (Nat.lt_0_succ _) eq_refl)).
      simpl length; rewrite Nat2Z.inj_succ, (IH idx); [lia | lia | |].
      * intros k c Hk Hc; apply (Hlo (S k) c); [lia | exact Hc].
      * intros k c Hk Hc; apply (Hhi (S k) c); [lia | exact Hc].
Qed.

(** [Encode] without the search: twice the number of representatives
    below the query, plus 2 if the query is a representative and 1 if it
    is not. *)
Lemma Encode_closed (d : Dict T) (v : T) :
  ascending (codes d) -> len (codes d) <= 32767 ->
  Encode d v =
  Ok (2 * below v (codes d) + (if member v (codes d) then 2 else 1)).
Proof.
  intros Hasc Hlen.
  destruct (Encode_spec d v Hasc Hlen) as (idx & Hidx & Hlo & Hhi & Hres).
  rewrite (below_split v (codes d) idx Hidx Hlo Hhi).
  destruct Hres as [[Hf ->] | [Hn He]].
  - rewrite (proj2 (member_In v (codes d)) (nth_error_In _ _ Hf)); f_equal; lia.
  - destruct (member v (codes d)) eqn:Hm; [exfalso | rewrite He; f_equal; lia].
    apply member_In, In_nth_error in Hm; destruct Hm as [i Hi].
    pose proof (Encode_at d i v Hasc Hlen Hi) as He'.
    rewrite He in He'.
    assert (2 * (Z.of_nat idx + 1) - 1 = 2 * (Z.of_nat i + 1)) by congruence.
    lia.
Qed.

Lemma below_range (v : T) (l : list T) : 0 <= below v l <= len l.
Proof.
  unfold below, len; pose proof (filter_length_le (fun r => cmp_Less r v) l); lia.
Qed.

(** [below] grows with the query. *)
Lemma below_mono (a b : T) (l : list T) : le a b -> below a l <= below b l.
Proof.
  intros Hab; unfold below, len; induction l as [| r l IH]; simpl; [lia |].
  destruct (cmp_Less r a) eqn:Ha.
  - apply cmp_Less_true in Ha.
    rewrite (proj2 (cmp_Less_true r b) (lt_le_trans _ _ _ Ha Hab)).
    simpl length; lia.
  - destruct (cmp_Less r b); simpl length; lia.
Qed.

End LookupMore.

(** ** Dictionaries are never empty *)

Section NonEmpty.

Context {T : Type} `{Ordered T}.

Lemma assignCodesWithStep_nonempty (codestep : Z) (clu : list (cluster T)) cs :
  clu <> [] -> assignCodesWithStep codestep clu = Ok cs -> cs <> [].
Proof.
  intros Hclu Hcs.
  destruct (segments_total codestep clu) as (segs & _ & Hch & _ & Hcodes).
  rewrite Hcodes in Hcs; injection Hcs as <-.
  destruct segs as [| s segs]; [| discriminate].
  simpl in Hch; destruct clu; [congruence | simpl in Hch; lia].
Qed.

Lemma firstn_nonempty {A : Type} (n : nat) (l : list A) :
  (0 < n)%nat -> l <> [] -> firstn n l <> [].
Proof.
  destruct n; [lia |]; destruct l; [congruence | discriminate].
Qed.

Lemma refine_loop_nonempty (ncodes : Z) (clu : list (cluster T)) :
  0 < ncodes -> clu <> [] ->
  forall iters codestep codes cs,
    codes <> [] ->
    refine_loop iters ncodes clu codestep codes = Ok cs -> cs <> [].
Proof.
  intros Hn Hclu; induction iters as [| iters IH];
    intros codestep codes cs Hne Hcs; simpl in Hcs.
  - injection Hcs as <-; exact Hne.
  - destruct (len codes =? ncodes); [injection Hcs as <-; exact Hne |].
    destruct (len codes >? ncodes).
    { destruct (Z.ltb_spec ncodes 0) as [| _]; [lia |].
      injection Hcs as <-; apply firstn_nonempty; [lia | exact Hne]. }
    unfold int_div in Hcs; destruct (Z.eqb_spec ncodes 0) as [| _]; [lia |].
    simpl in Hcs.
    match type of Hcs with
    | context [assignCodesWithStep ?st clu] =>
        destruct (assignCodesWithStep st clu) as [next | p |] eqn:Hnext;
        simpl in Hcs; try discriminate
    end.
    destruct (len next <? ncodes).
    + eapply IH; [| exact Hcs].
      eapply assignCodesWithStep_nonempty; eassumption.
    + injection Hcs as <-; exact Hne.
Qed.

Lemma assignCodesWithMinimalStep_nonempty (sampleSize ncodes : Z)
    (clu : list (cluster T)) cs :
  clu <> [] ->
  assignCodesWithMinimalStep sampleSize ncodes clu = Ok cs -> 0 <= ncodes ->
  cs <> [].
Proof.
  intros Hclu Hcs Hn; unfold assignCodesWithMinimalStep, int_div in Hcs.
  destruct (Z.eqb_spec ncodes 0) as [| Hne]; [discriminate |].
  cbn [bind] in Hcs.
  match type of Hcs with
  | context [assignCodesWithStep ?st clu] =>
      destruct (assignCodesWithStep st clu) as [cs0 | p |] eqn:Hcs0;
      cbn [bind] in Hcs; try discriminate
  end.
  eapply (refine_loop_nonempty ncodes clu); [lia | exact Hclu | | exact Hcs].
  eapply assignCodesWithStep_nonempty; eassumption.
Qed.

Lemma NewDict_codes_nonempty (m : Mode) (sample : list T) (d : Dict T) :
  NewDict m sample = Ok d -> codes d <> [].
Proof.
  unfold NewDict.
  destruct (Z.eqb_spec (len sample) 0) as [_ | Hne];
    [intros Hd; injection Hd as <-; discriminate |].
  assert (clusters (sort_Slice sample) <> []) as Hclu.
  { pose proof (sorted_clusters_nonempty sample) as Hpos.
    intros Hnil; rewrite Hnil in Hpos; unfold len in Hpos; simpl in Hpos.
    assert (sample <> []) by (intros ->; apply Hne; reflexivity).
    specialize (Hpos ltac:(assumption)); lia. }
  cbv zeta; destruct (len _ <=? NumExactCodes m).
  - intros Hd; injection Hd as <-; simpl.
    destruct (clusters (sort_Slice sample)); [congruence | discriminate].
  - destruct (assignCodesWithMinimalStep _ _ _) as [cs | p |] eqn:Hcs;
      cbn [bind]; try discriminate.
    intros Hd; injection Hd as <-; simpl.
    eapply assignCodesWithMinimalStep_nonempty; [exact Hclu | exact Hcs |].
    destruct (NumExactCodes_cases m); lia.
Qed.

(** What [NewDict] returns for a valid mode. *)
Lemma NewDict_valid_inv (m : Mode) (sample : list T) (d : Dict T) :
  valid_mode m -> NewDict m sample = Ok d ->
  mode d = m /\ ascending (codes d) /\
  1 <= len (codes d) <= NumExactCodes m.
Proof.
  intros Hm Hd; pose proof (NumExactCodes_valid m Hm) as Hn.
  pose proof (NewDict_codes_nonempty m sample d Hd) as Hne.
  assert (1 <= len (codes d)) as Hpos
    by (unfold len; destruct (codes d); [congruence | simpl; lia]).
  destruct sample as [| s sample].
  - rewrite NewDict_empty in Hd; injection Hd as <-; simpl.
    split; [reflexivity |]; split; [repeat constructor |].
    unfold len; simpl; lia.
  - destruct (NewDict_nonempty m (s :: sample))
      as (d' & Hd' & Hmode & Hasc & _ & Hlen); [discriminate | lia |].
    rewrite Hd' in Hd; injection Hd as <-; auto.
Qed.

End NonEmpty.

(** ** Clusters as run lengths *)

Lemma int_wrap_small (z : Z) : - 2 ^ 63 <= z <= maxInt -> int_wrap z = z.
Proof.
  unfold int_wrap, maxInt.
  change (2 ^ 63) with 9223372036854775808.
  change (2 ^ 64) with 18446744073709551616.
  intros Hz; rewrite Z.mod_small; lia.
Qed.

Lemma maxInt_pos : 0 < maxInt.
Proof. reflexivity. Qed.

Section RunLengths.

Context {T : Type} `{Ordered T}.

Lemma expand_app (clu clu' : list (cluster T)) :
  expand (clu ++ clu') = expand clu ++ expand clu'.
Proof. unfold expand; apply flat_map_app. Qed.

Lemma expand_one (v : T) (n : Z) :
  expand [{| value := v; count := n |}] = repeat v (Z.to_nat n).
Proof. unfold expand; simpl; apply app_nil_r. Qed.

Lemma repeat_succ_snoc (v : T) (n : nat) : repeat v (S n) = repeat v n ++ [v].
Proof. induction n as [| n IH]; simpl in *; [| rewrite <- IH]; reflexivity. Qed.

(** The loop of [clusters] keeps the values it has read: the closed
    clusters and the open run spell the sample read so far. *)
Lemma clusters_fold_expand (l : list T) :
  forall clu curr cnt clu' curr' cnt',
    fold_left clusters_step l (clu, curr, cnt) = (clu', curr', cnt') ->
    1 <= cnt -> cnt + len l <= maxInt ->
    Forall (fun c => 1 <= count c) clu ->
    expand clu' ++ repeat curr' (Z.to_nat cnt') =
      (expand clu ++ repeat curr (Z.to_nat cnt)) ++ l /\
    1 <= cnt' /\ Forall (fun c => 1 <= count c) clu'.
Proof.
  induction l as [| s l IH]; simpl; intros clu curr cnt clu' curr' cnt' Hf Hc Hb Hall.
  - injection Hf as <- <- <-; rewrite app_nil_r; auto.
  - unfold len in *; simpl length in Hb; rewrite Nat2Z.inj_succ in Hb.
    destruct (is_zero (cmp_Compare s curr)) eqn:Hz.
    + apply is_zero_true in Hz; subst s.
      unfold int_add in Hf; rewrite int_wrap_small in Hf
        by (change (2 ^ 63) with 9223372036854775808; lia).
      destruct (IH _ _ _ _ _ _ Hf) as (He & Hc' & Hall'); auto; try lia.
      split; [| auto].
      rewrite He; replace (Z.to_nat (cnt + 1)) with (S (Z.to_nat cnt)) by lia.
      rewrite repeat_succ_snoc, <- !app_assoc; reflexivity.
    + destruct (IH _ _ _ _ _ _ Hf) as (He & Hc' & Hall'); auto; try lia.
      { apply Forall_app; split; [exact Hall |].
        constructor; [exact Hc | constructor]. }
      split; [| auto].
      rewrite He, expand_app, expand_one, <- !app_assoc; reflexivity.
Qed.

Lemma clusters_expand_counts (l : list T) :
  len l <= maxInt ->
  expand (clusters l) = l /\ Forall (fun c => 1 <= count c) (clusters l).
Proof.
  intros Hb; destruct l as [| s0 l]; [split; [reflexivity | constructor] |].
  unfold clusters; simpl fold_left.
  rewrite cmp_Compare_refl; simpl is_zero; cbv iota.
  change (int_add 0 1) with 1.
  destruct (fold_left clusters_step l ([], s0, 1)) as [[clu' curr'] cnt'] eqn:Hf.
  unfold len in Hb; simpl length in Hb; rewrite Nat2Z.inj_succ in Hb.
  destruct (clusters_fold_expand l [] s0 1 clu' curr' cnt' Hf)
    as (He & Hc & Hall); [lia | unfold len; lia | constructor |].
  split.
  - rewrite expand_app, expand_one, He; reflexivity.
  - apply Forall_app; split; [exact Hall | constructor; [exact Hc | constructor]].
Qed.

Lemma In_expand (clu : list (cluster T)) (x : T) :
  In x (expand clu) -> In x (map value clu).
Proof.
  unfold expand; rewrite in_flat_map; intros (c & Hc & Hx).
  apply repeat_spec in Hx; subst x; apply in_map, Hc.
Qed.

Lemma occurrences_app (v : T) (l l' : list T) :
  occurrences v (l ++ l') = occurrences v l + occurrences v l'.
Proof.
  unfold occurrences, len; rewrite filter_app, length_app; lia.
Qed.

Lemma occurrences_repeat (v x : T) (n : nat) :
  occurrences v (repeat x n) = if eqb v x then Z.of_nat n else 0.
Proof.
  unfold occurrences, len; induction n as [| n IH]; simpl.
  - destruct (eqb v x); reflexivity.
  - destruct (eqb v x) eqn:He; simpl length; [| exact IH].
    rewrite Nat2Z.inj_succ, IH; lia.
Qed.

Lemma occurrences_absent (v : T) (l : list T) :
  ~ In v l -> occurrences v l = 0.
Proof.
  unfold occurrences, len; intros Hv.
  destruct (filter (eqb v) l) as [| x f] eqn:Hf; [reflexivity | exfalso].
  assert (In x (filter (eqb v) l)) as Hx by (rewrite Hf; left; reflexivity).
  apply filter_In in Hx; destruct Hx as [Hx He].
  apply eqb_true in He; subst x; exact (Hv Hx).
Qed.

Lemma occurrences_perm (v : T) (l l' : list T) :
  Permutation l l' -> occurrences v l = occurrences v l'.
Proof.
  unfold occurrences, len; induction 1; simpl;
    repeat match goal with |- context [eqb v ?x] => destruct (eqb v x) end;
    simpl; lia.
Qed.

(** In a cluster list of distinct values every count is the number of
    occurrences of its value in the sample the list stands for. *)
Lemma occurrences_expand (clu : list (cluster T)) :
  NoDup (map value clu) -> Forall (fun c => 1 <= count c) clu ->
  forall c, In c clu -> occurrences (value c) (expand clu) = count c.
Proof.
  induction clu as [| a clu IH]; intros Hnd Hall c Hc; [destruct Hc |].
  simpl in Hnd; apply NoDup_cons_iff in Hnd; destruct Hnd as [Ha Hnd].
  inversion Hall as [| ? ? Hca Hall']; subst.
  change (expand (a :: clu))
    with (repeat (value a) (Z.to_nat (count a)) ++ expand clu).
  rewrite occurrences_app, occurrences_repeat.
  destruct Hc as [<- | Hc].
  - rewrite (proj2 (eqb_true (value a) (value a)) eq_refl).
    rewrite occurrences_absent; [lia |].
    intros Hin; apply Ha, In_expand, Hin.
  - destruct (eqb (value c) (value a)) eqn:He.
    + apply eqb_true in He; exfalso; apply Ha; rewrite <- He.
      apply in_map, Hc.
    + rewrite (IH Hnd Hall' c Hc); lia.
Qed.

End RunLengths.

(** ** More on segments *)

Section SegmentsMore.

Context {T : Type} `{Ordered T}.

(** The inner loop keeps in [idxWithMaxVal] the earliest cluster of the
    largest count among those it went over. *)
Lemma accumulate_max (codestep : Z) (clu : list (cluster T)) (f : nat) :
  forall fuel lastIdx idxMax sum l m s,
    accumulate fuel codestep clu lastIdx idxMax sum = Ok (l, m, s) ->
    (idxMax < length clu)%nat -> (f <= idxMax <= lastIdx)%nat ->
    (forall k, (f <= k < lastIdx)%nat ->
       count_at clu k <= count_at clu idxMax /\
       ((k < idxMax)%nat -> count_at clu k < count_at clu idxMax)) ->
    forall k, (f <= k < l)%nat ->
      count_at clu k <= count_at clu m /\
      ((k < m)%nat -> count_at clu k < count_at clu m).
Proof.
  induction fuel as [| fuel IH]; intros lastIdx idxMax sum l m s Hacc Hm Hf Hinv;
    rewrite accumulate_eq in Hacc;
    destruct ((lastIdx <? length clu)%nat && (sum <? codestep)) eqn:Hg;
    try discriminate;
    try (injection Hacc as <- <- <-; exact Hinv).
  apply andb_true_iff in Hg; destruct Hg as [Hlt _].
  apply Nat.ltb_lt in Hlt.
  rewrite (index_lt clu idxMax no_cluster Hm),
          (index_lt clu lastIdx no_cluster Hlt) in Hacc; cbn [bind] in Hacc.
  fold (count_at clu idxMax) in Hacc; fold (count_at clu lastIdx) in Hacc.
  destruct (Z.ltb_spec (count_at clu idxMax) (count_at clu lastIdx)) as [Hc | Hc];
    (eapply IH; [exact Hacc | lia | lia |]); intros k Hk;
    destruct (Nat.eq_dec k lastIdx) as [-> | Hne];
    try (split; lia);
    destruct (Hinv k) as [Hle Hstrict]; lia.
Qed.

Lemma segments_loop_max (codestep : Z) (clu : list (cluster T)) :
  forall fuel firstIdx segs,
    segments_loop fuel codestep clu firstIdx = Ok segs ->
    Forall (earliest_max clu) segs.
Proof.
  induction fuel as [| fuel IH]; intros firstIdx segs Hsegs;
    rewrite segments_loop_eq in Hsegs;
    destruct (Nat.ltb_spec firstIdx (length clu)) as [Hlt | Hge];
    try discriminate;
    try (injection Hsegs as <-; constructor).
  destruct (accumulate _ _ _ _ _ _) as [[[l m] s] | p |] eqn:Hacc;
    cbn [bind] in Hsegs; try discriminate.
  destruct (segments_loop fuel codestep clu (l + 1)) as [rest | p |] eqn:Hrest;
    cbn [bind] in Hsegs; try discriminate.
  injection Hsegs as <-; constructor; [| eapply IH; exact Hrest].
  destruct (accumulate_spec codestep clu (length clu - firstIdx)
              firstIdx firstIdx 0 (Nat.le_refl _) Hlt)
    as (l' & m' & s' & Hacc' & Hl & _ & Hm & _).
  rewrite Hacc in Hacc'; injection Hacc' as <- <- <-.
  unfold earliest_max, seg_first, seg_last, seg_max; simpl.
  split; [lia |]; split; [lia |].
  eapply (accumulate_max codestep clu firstIdx); [exact Hacc | exact Hlt | lia |].
  intros k Hk; lia.
Qed.

(** Every cluster index lies within one segment or is the index a
    segment ended at. *)
Lemma chained_cover (n : nat) (segs : list (nat * nat * nat)) :
  forall f, chained n f segs ->
    forall k, (f <= k < n)%nat ->
      exists s, In s segs /\ (seg_first s <= k <= seg_last s)%nat.
Proof.
  induction segs as [| s rest IH]; intros f Hch k Hk; simpl in Hch; [lia |].
  destruct Hch as (Hf & _ & Hm & _ & _ & _ & Hrest).
  destruct (Nat.le_gt_cases k (seg_last s)) as [Hle | Hgt].
  - exists s; split; [left; reflexivity | lia].
  - destruct (IH _ Hrest k) as (s' & Hs' & Hr); [lia |].
    exists s'; split; [right; exact Hs' | exact Hr].
Qed.

(** A segment that accumulated a cluster uses up two indices, its
    successor's start included. *)
Lemma chained_halving (n : nat) (segs : list (nat * nat * nat)) :
  forall f, chained n f segs ->
    Forall (fun s => (seg_first s < seg_last s)%nat) segs ->
    (2 * length segs <= n + 1 - f)%nat.
Proof.
  induction segs as [| s rest IH]; intros f Hch Hne; simpl in *; [lia |].
  destruct Hch as (Hf & Hfn & Hm & _ & _ & _ & Hrest).
  inversion Hne as [| ? ? Hs Hne']; subst.
  specialize (IH _ Hrest Hne'); lia.
Qed.

Lemma accumulate_nonpositive (codestep : Z) (clu : list (cluster T)) fuel f :
  codestep <= 0 ->
  accumulate fuel codestep clu f f 0 = Ok (f, f, 0).
Proof.
  intros Hs; rewrite accumulate_eq.
  destruct (Z.ltb_spec 0 codestep); [lia |].
  rewrite andb_false_r; reflexivity.
Qed.

Lemma skipn_nth_cons {A : Type} (d : A) :
  forall (l : list A) (n : nat), (n < length l)%nat ->
    skipn n l = nth n l d :: skipn (S n) l.
Proof.
  induction l as [| a l IH]; intros n Hn; simpl in Hn; [lia |].
  destruct n as [| n]; [reflexivity |].
  simpl; rewrite (IH n) by lia; reflexivity.
Qed.

Lemma assign_loop_nonpositive (codestep : Z) (clu : list (cluster T)) :
  codestep <= 0 ->
  forall fuel f codes,
    (length clu - f <= fuel)%nat ->
    assign_loop fuel codestep clu f codes =
    Ok (codes ++ map value (skipn f clu)).
Proof.
  intros Hs; induction fuel as [| fuel IH]; intros f codes Hfuel;
    rewrite assign_loop_eq;
    destruct (Nat.ltb_spec f (length clu)) as [Hlt | Hge]; try lia;
    try (rewrite skipn_all2 by lia; rewrite app_nil_r; reflexivity).
  rewrite accumulate_nonpositive by exact Hs; cbn [bind].
  rewrite (index_lt clu f no_cluster Hlt); cbn [bind].
  rewrite IH by lia.
  rewrite (skipn_nth_cons no_cluster clu f Hlt), <- app_assoc.
  replace (f + 1)%nat with (S f) by lia; reflexivity.
Qed.

End SegmentsMore.

(** ** What a segment covers *)

Section Coverage.

Context {T : Type} `{Ordered T}.

Lemma count_at_nonneg (clu : list (cluster T)) (k : nat) :
  Forall (fun c => 0 <= count c) clu -> 0 <= count_at clu k.
Proof.
  intros Hall; unfold count_at.
  destruct (Nat.lt_ge_cases k (length clu)) as [Hlt | Hge].
  - rewrite Forall_forall in Hall; apply Hall, nth_In, Hlt.
  - rewrite nth_overflow by exact Hge; simpl; lia.
Qed.

Lemma covered_empty (clu : list (cluster T)) (f : nat) : covered clu f f = 0.
Proof. unfold covered; rewrite Nat.sub_diag; reflexivity. Qed.

Lemma sum_app (l l' : list Z) :
  fold_right Z.add 0 (l ++ l') = fold_right Z.add 0 l + fold_right Z.add 0 l'.
Proof. induction l as [| a l IH]; simpl; [| rewrite IH]; lia. Qed.

Lemma covered_snoc (clu : list (cluster T)) (f l : nat) :
  (f <= l)%nat -> covered clu f (S l) = covered clu f l + count_at clu l.
Proof.
  intros Hfl; unfold covered.
  replace (S l - f)%nat with (S (l - f)) by lia.
  rewrite seq_S, map_app, sum_app; simpl.
  replace (f + (l - f))%nat with l by lia; lia.
Qed.

Lemma covered_cons (clu : list (cluster T)) (f n : nat) :
  (f < n)%nat -> covered clu f n = count_at clu f + covered clu (S f) n.
Proof.
  intros Hfn; unfold covered.
  replace (n - f)%nat with (S (n - S f)) by lia; reflexivity.
Qed.

Lemma covered_nonneg (clu : list (cluster T)) (f l : nat) :
  Forall (fun c => 0 <= count c) clu -> 0 <= covered clu f l.
Proof.
  intros Hall; unfold covered; generalize (l - f)%nat as n; intros n.
  revert f; induction n as [| n IH]; intros f; simpl; [lia |].
  pose proof (count_at_nonneg clu f Hall); specialize (IH (S f)); lia.
Qed.

Lemma covered_split (clu : list (cluster T)) (f m n : nat) :
  (f <= m <= n)%nat -> covered clu f n = covered clu f m + covered clu m n.
Proof.
  intros Hm; unfold covered.
  replace (n - f)%nat with ((m - f) + (n - m))%nat by lia.
  rewrite seq_app, map_app, sum_app.
  replace (f + (m - f))%nat with m by lia; reflexivity.
Qed.

(** The inner loop adds up the counts of the clusters it goes over; it
    stops at the first cluster with which the sum reaches the step. *)
Lemma accumulate_sum (codestep : Z) (clu : list (cluster T)) :
  Forall (fun c => 0 <= count c) clu ->
  forall fuel lastIdx idxMax sum l m s,
    accumulate fuel codestep clu lastIdx idxMax sum = Ok (l, m, s) ->
    (idxMax < length clu)%nat ->
    0 <= sum -> sum + covered clu lastIdx (length clu) <= maxInt ->
    (lastIdx <= l)%nat /\
    s = sum + covered clu lastIdx l /\
    ((l < length clu)%nat -> codestep <= s) /\
    ((lastIdx < l)%nat -> s - count_at clu (l - 1) < codestep).
Proof.
  intros Hall; induction fuel as [| fuel IH];
    intros lastIdx idxMax sum l m s Hacc Hm Hsum Hb;
    rewrite accumulate_eq in Hacc;
    destruct (Nat.ltb_spec lastIdx (length clu)) as [Hlt | Hge];
    destruct (Z.ltb_spec sum codestep) as [Hs | Hs]; simpl in Hacc;
    try discriminate;
    try (injection Hacc as <- <- <-; rewrite covered_empty;
         repeat split; lia).
  rewrite (index_lt clu idxMax no_cluster Hm),
          (index_lt clu lastIdx no_cluster Hlt) in Hacc; cbn [bind] in Hacc.
  fold (count_at clu idxMax) in Hacc; fold (count_at clu lastIdx) in Hacc.
  pose proof (count_at_nonneg clu lastIdx Hall) as Hc.
  pose proof (covered_nonneg clu (S lastIdx) (length clu) Hall) as Hrest.
  rewrite (covered_cons clu lastIdx (length clu) Hlt) in Hb.
  unfold int_add in Hacc; rewrite int_wrap_small in Hacc
    by (change (2 ^ 63) with 9223372036854775808; lia).
  apply IH in Hacc; try lia.
  - destruct Hacc as (Hl & -> & Hexit & Hmin).
    split; [lia |]; split; [| split; [exact Hexit |]].
    + rewrite (covered_cons clu lastIdx l) by lia; lia.
    + intros _; destruct (Nat.eq_dec l (S lastIdx)) as [-> | Hne].
      * rewrite covered_empty; simpl; rewrite Nat.sub_0_r; lia.
      * apply Hmin; lia.
  - destruct (_ <? _); lia.
Qed.

Lemma segments_loop_covered (codestep : Z) (clu : list (cluster T)) :
  Forall (fun c => 0 <= count c) clu ->
  covered clu 0 (length clu) <= maxInt ->
  forall fuel firstIdx segs,
    segments_loop fuel codestep clu firstIdx = Ok segs ->
    Forall (fun s =>
      ((seg_last s < length clu)%nat ->
       codestep <= covered clu (seg_first s) (seg_last s)) /\
      ((seg_first s < seg_last s)%nat ->
       covered clu (seg_first s) (seg_last s - 1) < codestep)) segs.
Proof.
  intros Hall Hb; induction fuel as [| fuel IH]; intros firstIdx segs Hsegs;
    rewrite segments_loop_eq in Hsegs;
    destruct (Nat.ltb_spec firstIdx (length clu)) as [Hlt | Hge];
    try discriminate;
    try (injection Hsegs as <-; constructor).
  destruct (accumulate _ _ _ _ _ _) as [[[l m] s] | p |] eqn:Hacc;
    cbn [bind] in Hsegs; try discriminate.
  destruct (segments_loop fuel codestep clu (l + 1)) as [rest | p |] eqn:Hrest;
    cbn [bind] in Hsegs; try discriminate.
  injection Hsegs as <-; constructor; [| eapply IH; exact Hrest].
  unfold seg_first, seg_last; simpl.
  pose proof (covered_nonneg clu 0 firstIdx Hall) as H0.
  rewrite (covered_split clu 0 firstIdx (length clu)) in Hb by lia.
  apply (accumulate_sum codestep clu Hall) in Hacc; try lia.
  destruct Hacc as (Hl & -> & Hexit & Hmin); split; [exact Hexit |].
  intros Hfl; specialize (Hmin Hfl).
  replace l with (S (l - 1)) in Hmin at 1 by lia.
  rewrite covered_snoc in Hmin by lia; lia.
Qed.

End Coverage.

(** ** More on construction *)

Lemma forallb_false_exists {A : Type} (f : A -> bool) (l : list A) :
  forallb f l = false -> exists x, In x l /\ f x = false.
Proof.
  induction l as [| a l IH]; simpl; [discriminate |].
  destruct (f a) eqn:Ha; simpl.
  - intros Hl; destruct (IH Hl) as (x & Hx & Hfx); exists x; auto.
  - intros _; exists a; auto.
Qed.

Lemma nth_update_nth_other {A : Type} (d x : A) :
  forall (l : list A) (n b : nat), b <> n -> nth b (update_nth n x l) d = nth b l d.
Proof.
  induction l as [| a l IH]; intros n b Hb; [destruct n; reflexivity |].
  destruct n as [| n], b as [| b]; simpl; try reflexivity; try lia.
  apply IH; lia.
Qed.

Lemma length_update_nth {A : Type} (x : A) :
  forall (l : list A) (n : nat), length (update_nth n x l) = length l.
Proof.
  induction l as [| a l IH]; intros [| n]; simpl; auto.
Qed.

Section ConstructionMore.

Context {T : Type} `{Ordered T}.

Lemma distinct_length (l : list T) : (length (distinct l) <= length l)%nat.
Proof.
  induction l as [| a l IH]; simpl; [lia |].
  pose proof (filter_length_le (fun y => negb (eqb y a)) (distinct l)); lia.
Qed.

Lemma len_sorted_clusters (sample : list T) :
  len (clusters (sort_Slice sample)) = len (distinct sample).
Proof.
  unfold len; rewrite <- (length_map value), sorted_clusters_distinct.
  rewrite sort_Slice_length; reflexivity.
Qed.

(** The sorted copy depends on the values of the sample only, not on
    their order. *)
Lemma sort_Slice_perm_eq (l l' : list T) :
  Permutation l l' -> sort_Slice l = sort_Slice l'.
Proof.
  intros Hp; apply sort_Slice_unique; [apply sort_Slice_nondecreasing |].
  rewrite <- Hp; apply sort_Slice_perm.
Qed.

(** A list without duplicates that is longer than another has a value
    the other lacks. *)
Lemma longer_has_other (l l' : list T) :
  NoDup l -> (length l' < length l)%nat -> exists v, In v l /\ ~ In v l'.
Proof.
  intros Hnd Hlen.
  destruct (forallb (fun v => member v l') l) eqn:Hall.
  - exfalso; rewrite forallb_forall in Hall.
    assert (incl l l') as Hincl by (intros v Hv; apply member_In, Hall, Hv).
    pose proof (NoDup_incl_length Hnd Hincl); lia.
  - apply forallb_false_exists in Hall; destruct Hall as (v & Hv & Hm).
    exists v; split; [exact Hv |].
    intros Hin; apply member_In in Hin; congruence.
Qed.

Lemma assignCodesWithStep_nonpositive (codestep : Z) (clu : list (cluster T)) :
  codestep <= 0 -> assignCodesWithStep codestep clu = Ok (map value clu).
Proof.
  intros Hs; unfold assignCodesWithStep.
  rewrite assign_loop_nonpositive by (exact Hs || lia); reflexivity.
Qed.

Lemma assignCodesWithStep_positive (codestep : Z) (clu : list (cluster T)) cs :
  0 < codestep -> assignCodesWithStep codestep clu = Ok cs ->
  2 * len cs <= len clu + 1.
Proof.
  intros Hs Hcs.
  destruct (segments_total codestep clu) as (segs & _ & Hch & Hne & Hcodes).
  rewrite Hcodes in Hcs; injection Hcs as <-.
  pose proof (chained_halving _ _ _ Hch (Hne Hs)) as Hh.
  unfold len; rewrite length_map; lia.
Qed.

(** The refinement loop never takes a step of 0: its codes come from a
    positive step, so they are at most every other cluster. *)
Lemma refine_loop_halving (ncodes bound : Z) (clu : list (cluster T)) :
  0 < ncodes <= 32767 -> ncodes < len clu -> bound * 10000 <= maxInt ->
  forall iters codestep codes cs,
    0 < codestep <= bound ->
    2 * len codes <= len clu + 1 ->
    refine_loop iters ncodes clu codestep codes = Ok cs ->
    2 * len cs <= len clu + 1.
Proof.
  intros Hn Hclu Hbound; induction iters as [| iters IH];
    intros codestep codes cs Hstep Hcodes Hcs; cbn [refine_loop] in Hcs.
  - injection Hcs as <-; exact Hcodes.
  - destruct (Z.eqb_spec (len codes) ncodes) as [_ | Hne];
      [injection Hcs as <-; exact Hcodes |].
    destruct (Z.gtb_spec (len codes) ncodes) as [_ | Hle].
    { destruct (Z.ltb_spec ncodes 0) as [| _]; [lia |].
      injection Hcs as <-.
      pose proof (firstn_le_length (Z.to_nat ncodes) codes) as Hf.
      unfold len in *; rewrite length_firstn; lia. }
    assert (0 <= len codes) as Hlc by (unfold len; lia).
    assert (maxInt = 9223372036854775807) as HmaxInt by reflexivity.
    assert (- 2 ^ 63 = -9223372036854775808) as HminInt by reflexivity.
    set (bias := len codes * 10000 ÷ ncodes).
    assert (0 <= bias < 10000) as Hbias.
    { unfold bias; rewrite Z.quot_div_nonneg by lia; split.
      - apply Z.div_pos; lia.
      - apply Z.div_lt_upper_bound; lia. }
    assert (int_div (int_mul (len codes) 10000) ncodes = Ok bias) as Hb.
    { unfold int_div, int_mul.
      destruct (Z.eqb_spec ncodes 0) as [| _]; [lia |].
      rewrite (int_wrap_small (len codes * 10000)) by lia.
      fold bias; rewrite int_wrap_small by lia; reflexivity. }
    set (codestep' := codestep * bias ÷ 10000).
    assert (0 <= codestep' <= codestep) as Hnew.
    { unfold codestep'; rewrite Z.quot_div_nonneg by nia; split.
      - apply Z.div_pos; nia.
      - apply Z.div_le_upper_bound; nia. }
    assert (int_div (int_mul codestep bias) 10000 = Ok codestep') as Hs.
    { unfold int_div, int_mul; simpl Z.eqb; cbv iota.
      rewrite (int_wrap_small (codestep * bias)) by nia.
      fold codestep'; rewrite int_wrap_small by lia; reflexivity. }
    rewrite Hb in Hcs; cbn [bind] in Hcs.
    rewrite Hs in Hcs; cbn [bind] in Hcs.
    destruct (Z.eq_dec codestep' 0) as [Hz | Hnz].
    + rewrite assignCodesWithStep_nonpositive in Hcs by lia.
      cbn [bind] in Hcs.
      destruct (Z.ltb_spec (len (map value clu)) ncodes) as [Hlt | _].
      * unfold len in Hlt; rewrite length_map in Hlt; unfold len in Hclu; lia.
      * injection Hcs as <-; exact Hcodes.
    + destruct (assignCodesWithStep codestep' clu) as [next | p |] eqn:Hnext;
        cbn [bind] in Hcs; try discriminate.
      destruct (len next <? ncodes).
      * eapply (IH codestep' next); [lia | | exact Hcs].
        eapply assignCodesWithStep_positive; [| exact Hnext]; lia.
      * injection Hcs as <-; exact Hcodes.
Qed.

End ConstructionMore.

(** ** Counting the representatives below a query *)

Lemma Ok_inj {A : Type} (x y : A) : Ok x = Ok y -> x = y.
Proof. congruence. Qed.

Section Below.

Context {T : Type} `{Ordered T}.

Lemma lt_trichotomy (a b : T) : lt a b \/ a = b \/ lt b a.
Proof.
  destruct (cmp_Compare a b) eqn:Hc.
  - right; left; apply cmp_Compare_eq, Hc.
  - left; exact Hc.
  - right; right; apply cmp_Compare_gt, Hc.
Qed.

Lemma below_zero_iff (v : T) (l : list T) :
  below v l = 0 <-> forall r, In r l -> le v r.
Proof.
  unfold below, len; induction l as [| a l IH]; simpl.
  - split; [intros _ r [] | reflexivity].
  - destruct (cmp_Less a v) eqn:Ha; simpl length.
    + split; [lia | intros Hall; exfalso].
      apply cmp_Less_true in Ha.
      apply (lt_irrefl a), (lt_le_trans _ v); [exact Ha | apply Hall; auto].
    + apply cmp_Less_false in Ha; rewrite IH; split.
      * intros Hall r [<- | Hr]; auto.
      * intros Hall r Hr; apply Hall; auto.
Qed.

Lemma below_all_iff (v : T) (l : list T) :
  below v l = len l <-> forall r, In r l -> lt r v.
Proof.
  unfold below, len; rewrite Nat2Z.inj_iff.
  induction l as [| a l IH]; simpl.
  - split; [intros _ r [] | reflexivity].
  - pose proof (filter_length_le (fun r => cmp_Less r v) l) as Hf.
    destruct (cmp_Less a v) eqn:Ha; simpl length.
    + apply cmp_Less_true in Ha; split.
      * intros He r [<- | Hr]; [exact Ha |].
        apply IH; [lia | exact Hr].
      * intros Hall; f_equal; apply IH; intros r Hr; apply Hall; auto.
    + split; [lia | intros Hall; exfalso].
      apply cmp_Less_false, not_lt_le in Ha; apply Ha, Hall; auto.
Qed.

(** A value of the list that lies below [b] is counted below [b] and not
    below itself. *)
Lemma below_strict (a b : T) (l : list T) :
  In a l -> lt a b -> below a l < below b l.
Proof.
  intros Hin Hab; pose proof (lt_le a b Hab) as Hle.
  induction l as [| r l IH]; [destruct Hin |].
  pose proof (below_mono a b l Hle) as Hm.
  unfold below, len in *; simpl.
  destruct Hin as [-> | Hin].
  - rewrite (proj2 (cmp_Less_true a b) Hab).
    destruct (cmp_Less a a) eqn:Haa;
      [apply cmp_Less_true in Haa; exfalso; exact (lt_irrefl a Haa) |].
    simpl length; lia.
  - specialize (IH Hin).
    destruct (cmp_Less r a) eqn:Hra.
    + apply cmp_Less_true in Hra.
      rewrite (proj2 (cmp_Less_true r b) (lt_trans _ _ _ Hra Hab)).
      simpl length; lia.
    + destruct (cmp_Less r b); simpl length; lia.
Qed.

End Below.

(** * Further specified properties *)

Section FurtherLookup.

Context {T : Type} `{Ordered T}.

(** X1. [Encode] never panics, on any dictionary (built by [NewDict] or
    not, sorted or not, the zero [Dict] included): the search ends, no
    index is out of range, and the result is a [uint16]. *)
Theorem Encode_never_panics (d : Dict T) (v : T) :
  exists c, Encode d v = Ok c /\ 0 <= c <= 65535.
Proof.
  unfold Encode, sort_Search.
  destruct (search_loop_total (length (codes d))
              (fun i => c <- index (codes d) i ;;
                        Ok (is_nonneg (cmp_Compare c v))))
    with (fuel := length (codes d)) (i := 0%nat) (j := length (codes d))
    as (idx & -> & Hidx); try lia.
  - intros k Hk; rewrite (index_lt (codes d) k zero Hk); cbn [bind].
    eexists; reflexivity.
  - cbn [bind]; unfold len.
    destruct (Z.leb_spec (Z.of_nat (length (codes d))) (Z.of_nat idx)).
    + eexists; split; [reflexivity | apply uint16_wrap_range].
    + rewrite (index_lt (codes d) idx zero) by lia; cbn [bind].
      destruct (negb _); eexists; (split; [reflexivity | apply uint16_wrap_range]).
Qed.

(** X2. On a dictionary that [NewDict] returned, the code of [v] is
    twice the number of representatives below [v], plus 2 if [v] is a
    representative and plus 1 if it is not. *)
Theorem Encode_counts_below (d : Dict T) (v : T) :
  constructed d ->
  Encode d v =
  Ok (2 * below v (codes d) + (if member v (codes d) then 2 else 1)).
Proof.
  intros Hd; destruct (constructed_inv d Hd) as [Hasc Hlen].
  apply Encode_closed; assumption.
Qed.

(** X3. The codes of a dictionary built with a valid mode stay within
    the mode's code space: every code lies in [1, MaxInexactCode], and
    every exact code in [2, MaxExactCode]. *)
Theorem Encode_within_mode (m : Mode) (sample : list T) (d : Dict T) (v : T) :
  valid_mode m -> NewDict m sample = Ok d ->
  exists c,
    Encode d v = Ok c /\
    1 <= c <= MaxInexactCode (mode d) /\
    (IsExact c = true -> 2 <= c <= MaxExactCode (mode d)).
Proof.
  intros Hm Hd.
  destruct (NewDict_valid_inv m sample d Hm Hd) as (Hmode & Hasc & Hlen).
  rewrite Hmode.
  assert (MaxExactCode m = 2 * NumExactCodes m /\
          MaxInexactCode m = 2 * NumExactCodes m + 1 /\
          NumExactCodes m <= 32767) as (-> & -> & Hb)
    by (destruct Hm as [-> | ->]; repeat split; discriminate).
  destruct (Encode_spec d v Hasc) as (idx & Hidx & _ & _ & Hres); [lia |].
  unfold len in Hlen.
  destruct Hres as [[Hf ->] | [_ ->]]; eexists; (split; [reflexivity |]).
  - assert (idx < length (codes d))%nat
      by (apply nth_error_Some; rewrite Hf; discriminate).
    lia.
  - split; [lia | rewrite IsExact_odd; discriminate].
Qed.

(** X4. The two tail codes: on a dictionary that [NewDict] returned a
    query gets code 1 exactly when it lies below every representative,
    and the code [2*Len()+1] exactly when it lies above every
    representative. *)
Theorem Encode_tails (d : Dict T) (v : T) :
  constructed d ->
  (Encode d v = Ok 1 <-> forall r, In r (codes d) -> lt v r) /\
  (Encode d v = Ok (2 * Len d + 1) <-> forall r, In r (codes d) -> lt r v).
Proof.
  intros Hd; destruct (constructed_inv d Hd) as [Hasc Hlen].
  rewrite (Encode_closed d v Hasc Hlen); unfold Len.
  pose proof (below_range v (codes d)) as Hr.
  split; split.
  - intros He.
    assert (below v (codes d) = 0 /\ member v (codes d) = false) as [Hb Hm]
      by (apply Ok_inj in He; destruct (member v (codes d)); split;
          congruence || lia).
    intros r Hin; pose proof (proj1 (below_zero_iff v (codes d)) Hb r Hin) as Hle.
    apply le_cases in Hle; destruct Hle as [Hlt | ->]; [exact Hlt |].
    apply member_In in Hin; congruence.
  - intros Hall.
    assert (below v (codes d) = 0) as ->
      by (apply below_zero_iff; intros r Hin; apply lt_le, Hall, Hin).
    destruct (member v (codes d)) eqn:Hm; [exfalso | reflexivity].
    apply member_In in Hm; exact (lt_irrefl v (Hall v Hm)).
  - intros He.
    assert (below v (codes d) = len (codes d)) as Hb
      by (apply Ok_inj in He; destruct (member v (codes d)); lia).
    apply below_all_iff, Hb.
  - intros Hall.
    rewrite (proj2 (below_all_iff v (codes d)) Hall).
    destruct (member v (codes d)) eqn:Hm; [exfalso | reflexivity].
    apply member_In in Hm; exact (lt_irrefl v (Hall v Hm)).
Qed.

(** X5. Codes reflect the order of the values: on a dictionary that
    [NewDict] returned, a smaller code means a smaller value. *)
Theorem Encode_reflects_order (d : Dict T) (a b : T) (ca cb : Code) :
  constructed d ->
  Encode d a = Ok ca -> Encode d b = Ok cb -> ca < cb -> lt a b.
Proof.
  intros Hd; destruct (constructed_inv d Hd) as [Hasc Hlen].
  rewrite !Encode_closed by assumption; intros Ha Hb Hlt.
  destruct (lt_trichotomy a b) as [Hab | [-> | Hba]]; [exact Hab | |]; exfalso.
  - rewrite Ha in Hb; apply Ok_inj in Hb; lia.
  - pose proof (below_mono b a (codes d) (lt_le _ _ Hba)) as Hm.
    apply Ok_inj in Ha, Hb.
    destruct (member b (codes d)) eqn:Hmb.
    + pose proof (below_strict b a (codes d)
                    (proj1 (member_In _ _) Hmb) Hba) as Hs.
      destruct (member a (codes d)); lia.
    + destruct (member a (codes d)); lia.
Qed.

(** X6. An exact code names one value: on a dictionary that [NewDict]
    returned, two queries with the same exact code are equal. *)
Theorem Encode_exact_injective (d : Dict T) (a b : T) (c : Code) :
  constructed d ->
  Encode d a = Ok c -> Encode d b = Ok c -> IsExact c = true -> a = b.
Proof.
  intros Hd; destruct (constructed_inv d Hd) as [Hasc Hlen].
  rewrite !Encode_closed by assumption; intros Ha Hb Hex.
  assert (member a (codes d) = true /\ member b (codes d) = true /\
          below a (codes d) = below b (codes d)) as (Hma & Hmb & Heq).
  { apply Ok_inj in Ha, Hb.
    destruct (member a (codes d)), (member b (codes d));
      repeat split; try lia; exfalso; subst c;
      replace (2 * below a (codes d) + 1)
        with (2 * (below a (codes d) + 1) - 1) in Hex by lia;
      rewrite IsExact_odd in Hex; discriminate. }
  apply member_In in Hma, Hmb.
  destruct (lt_trichotomy a b) as [Hab | [Hab | Hba]]; [exfalso | exact Hab | exfalso].
  - pose proof (below_strict a b (codes d) Hma Hab); lia.
  - pose proof (below_strict b a (codes d) Hmb Hba); lia.
Qed.

End FurtherLookup.

Section FurtherConstruction.

Context {T : Type} `{Ordered T}.

(** X7. [clusters] is a run-length encoding: for every input slice,
    sorted or not, that an [int] can count, writing every cluster's value
    as often as its count says gives the input back, and every count is
    at least 1. *)
Theorem clusters_run_lengths (l : list T) :
  len l <= maxInt ->
  expand (clusters l) = l /\ Forall (fun c => 1 <= count c) (clusters l).
Proof. apply clusters_expand_counts. Qed.

(** X8. The frequency analysis of [NewDict] counts occurrences: the
    count of every cluster of the sorted sample is the number of times
    its value occurs in the sample. *)
Theorem clusters_count_occurrences (sample : list T) (c : cluster T) :
  len sample <= maxInt ->
  In c (clusters (sort_Slice sample)) ->
  count c = occurrences (value c) sample.
Proof.
  intros Hb Hc.
  assert (len (sort_Slice sample) <= maxInt) as Hb'
    by (unfold len in *; rewrite sort_Slice_length; exact Hb).
  destruct (clusters_expand_counts (sort_Slice sample) Hb') as [He Hall].
  destruct (sorted_clusters_spec sample) as [Hasc _].
  rewrite (occurrences_perm _ _ _ (sort_Slice_perm sample)), <- He.
  symmetry; apply occurrences_expand; auto.
  apply ascending_NoDup, Hasc.
Qed.

(** X9. The codes of [assignCodesWithStep] are the values of its
    segments' representatives, and the representative of every segment
    that accumulated a cluster is one of the clusters it accumulated, of
    the largest count among them, and of these the earliest: a later
    cluster replaces it only with a strictly greater count.  (A segment
    that accumulated nothing is represented by the cluster it starts
    at.) *)
Theorem segment_representative_earliest_max (codestep : Z)
    (clu : list (cluster T)) :
  exists segs,
    segments codestep clu = Ok segs /\
    assignCodesWithStep codestep clu = Ok (map (seg_value clu) segs) /\
    Forall (earliest_max clu) segs.
Proof.
  destruct (segments_total codestep clu) as (segs & Hs & _ & _ & Hcodes).
  exists segs; repeat split; auto.
  eapply segments_loop_max; exact Hs.
Qed.

(** X10. The segments of [assignCodesWithStep], one for each code it
    returns, follow one another without overlap, and every cluster index
    lies within one of them or is the index one of them ended at. *)
Theorem segments_cover_clusters (codestep : Z) (clu : list (cluster T)) :
  exists segs,
    segments codestep clu = Ok segs /\
    assignCodesWithStep codestep clu = Ok (map (seg_value clu) segs) /\
    (forall k, (k < length clu)%nat ->
       exists s, In s segs /\ (seg_first s <= k <= seg_last s)%nat) /\
    (forall pre s mid s' post,
       segs = pre ++ s :: mid ++ s' :: post ->
       (seg_last s < seg_first s')%nat).
Proof.
  destruct (segments_total codestep clu) as (segs & Hs & Hch & _ & Hcodes).
  exists segs; split; [exact Hs |]; split; [exact Hcodes |]; split.
  - intros k Hk; apply (chained_cover _ _ _ Hch); lia.
  - intros pre s mid s' post ->.
    destruct (chained_split _ _ _ _ _ Hch) as (_ & _ & Hspost).
    simpl in Hspost; destruct Hspost as (_ & _ & _ & _ & _ & _ & Hrest).
    destruct (chained_split _ _ _ _ _ Hrest) as (Hle & _ & _); lia.
Qed.

(** X11. With a step of 0 or less, [assignCodesWithStep] returns the
    value of every cluster: no segment accumulates anything and none
    skips a cluster. *)
Theorem nonpositive_step_all_clusters (codestep : Z) (clu : list (cluster T)) :
  codestep <= 0 -> assignCodesWithStep codestep clu = Ok (map value clu).
Proof. apply assignCodesWithStep_nonpositive. Qed.

(** X12. With a step of 1 or more, [assignCodesWithStep] returns at
    most one code for every two clusters (rounded up), because every
    segment but the last uses up the clusters it accumulated and the one
    it skips; and it returns at least one code for a non-empty cluster
    list. *)
Theorem positive_step_every_other (codestep : Z) (clu : list (cluster T)) :
  0 < codestep ->
  exists cs,
    assignCodesWithStep codestep clu = Ok cs /\
    2 * len cs <= len clu + 1 /\
    (clu <> [] -> 1 <= len cs).
Proof.
  intros Hs.
  destruct (segments_total codestep clu) as (segs & _ & _ & _ & Hcodes).
  eexists; split; [exact Hcodes |]; split.
  - eapply assignCodesWithStep_positive; eassumption.
  - intros Hne.
    pose proof (assignCodesWithStep_nonempty codestep clu _ Hne Hcodes) as Hcs.
    unfold len; destruct (map (seg_value clu) segs); [congruence | simpl; lia].
Qed.

(** X13. Each code covers at least [codestep] worth of the sample:
    [assignCodesWithStep] returns one code for each of its segments, and
    a segment that ends before the clusters run out accumulated counts
    that add up to [codestep] or more, and without its last cluster they
    add up to less.  (Counts not negative
    and their total within [int], as for the clusters of a sample.) *)
Theorem segment_covers_step (codestep : Z) (clu : list (cluster T)) :
  Forall (fun c => 0 <= count c) clu ->
  covered clu 0 (length clu) <= maxInt ->
  exists segs,
    segments codestep clu = Ok segs /\
    assignCodesWithStep codestep clu = Ok (map (seg_value clu) segs) /\
    Forall (fun s =>
      ((seg_last s < length clu)%nat ->
       codestep <= covered clu (seg_first s) (seg_last s)) /\
      ((seg_first s < seg_last s)%nat ->
       covered clu (seg_first s) (seg_last s - 1) < codestep)) segs.
Proof.
  intros Hall Hb.
  destruct (segments_total codestep clu) as (segs & Hs & _ & _ & Hcodes).
  exists segs; split; [exact Hs |]; split; [exact Hcodes |].
  eapply segments_loop_covered; eassumption.
Qed.

(** X14. [NewDict] never returns an empty dictionary: for every valid
    mode and every sample, [Len()] is at least 1. *)
Theorem NewDict_Len_positive (m : Mode) (sample : list T) :
  valid_mode m ->
  exists d, NewDict m sample = Ok d /\ 1 <= Len d.
Proof.
  intros Hm; pose proof (NumExactCodes_valid m Hm) as Hn.
  assert (exists d, NewDict m sample = Ok d) as [d Hd].
  { destruct sample as [| s sample]; [eexists; apply NewDict_empty |].
    destruct (NewDict_nonempty m (s :: sample)) as (d & Hd & _);
      [discriminate | lia | exists d; exact Hd]. }
  exists d; split; [exact Hd |].
  destruct (NewDict_valid_inv m sample d Hm Hd) as (_ & _ & Hlen).
  unfold Len; lia.
Qed.

(** X15. The dictionary depends on the values of the sample and how
    often each occurs, not on their order: [NewDict] returns the same on
    two samples that are permutations of one another. *)
Theorem NewDict_order_independent (m : Mode) (sample sample' : list T) :
  Permutation sample sample' -> NewDict m sample = NewDict m sample'.
Proof.
  intros Hp; unfold NewDict, len.
  rewrite (sort_Slice_perm_eq _ _ Hp), (Permutation_length Hp); reflexivity.
Qed.

(** X16. With more distinct values in the sample than the mode has
    exact codes, some value of the sample is not a representative and
    encodes to an inexact code. *)
Theorem many_distinct_values_inexact (m : Mode) (sample : list T) :
  valid_mode m -> NumExactCodes m < len (distinct sample) ->
  exists d,
    NewDict m sample = Ok d /\
    exists v c,
      In v sample /\ ~ In v (codes d) /\
      Encode d v = Ok c /\ IsExact c = false.
Proof.
  intros Hm Hmany; pose proof (NumExactCodes_valid m Hm) as Hn.
  assert (sample <> []) as Hne
    by (intros ->; unfold len in Hmany; simpl in Hmany; lia).
  destruct (NewDict_nonempty m sample Hne) as (d & Hd & _ & Hasc & _ & Hlen);
    [lia |].
  exists d; split; [exact Hd |].
  destruct (longer_has_other (distinct sample) (codes d) (distinct_NoDup sample))
    as (v & Hv & Hnot); [unfold len in *; lia |].
  exists v; eexists; split; [apply distinct_In, Hv |]; split; [exact Hnot |].
  rewrite Encode_closed by (assumption || lia).
  destruct (member v (codes d)) eqn:Hmem;
    [apply member_In in Hmem; contradiction |].
  split; [reflexivity |].
  replace (2 * below v (codes d) + 1)
    with (2 * (below v (codes d) + 1) - 1) by lia.
  apply IsExact_odd.
Qed.

(** X17. On the adaptive path the dictionary holds at most one code for
    every two distinct values of the sample (rounded up), however large
    the budget: the first step is at least 1, a refined step of 0 gives
    too many codes and is not taken, and a positive step skips a cluster
    after every segment.  (For samples of at most [maxInt / 10000]
    values, for which [codestep * bias] does not overflow.) *)
Theorem adaptive_path_halves (m : Mode) (sample : list T) :
  valid_mode m -> len sample * 10000 <= maxInt ->
  NumExactCodes m < len (distinct sample) ->
  exists d,
    NewDict m sample = Ok d /\
    2 * Len d <= len (distinct sample) + 1.
Proof.
  intros Hm Hsize Hmany; pose proof (NumExactCodes_valid m Hm) as Hn.
  pose proof (len_sorted_clusters sample) as Hclu.
  pose proof (distinct_length sample) as Hdl.
  assert (sample <> []) as Hne
    by (intros ->; unfold len in Hmany; simpl in Hmany; lia).
  destruct (NewDict_nonempty m sample Hne) as (d & Hd & _); [lia |].
  exists d; split; [exact Hd |].
  revert Hd; unfold NewDict.
  destruct (Z.eqb_spec (len sample) 0) as [Hz | _];
    [apply len_zero_nil in Hz; contradiction |].
  cbv zeta.
  destruct (Z.leb_spec (len (clusters (sort_Slice sample))) (NumExactCodes m));
    [lia |].
  unfold assignCodesWithMinimalStep, int_div.
  destruct (Z.eqb_spec (NumExactCodes m) 0) as [| _]; [lia |]; cbn [bind].
  assert (maxInt = 9223372036854775807) as HmaxInt by reflexivity.
  assert (- 2 ^ 63 = -9223372036854775808) as HminInt by reflexivity.
  assert (1 <= len sample ÷ NumExactCodes m <= len sample) as Hstep.
  { unfold len in *; rewrite Z.quot_div_nonneg by lia; split.
    - apply Z.div_le_lower_bound; lia.
    - apply Z.div_le_upper_bound; nia. }
  rewrite int_wrap_small by lia.
  destruct (assignCodesWithStep _ _) as [cs0 | p |] eqn:Hcs0;
    cbn [bind]; try discriminate.
  destruct (refine_loop _ _ _ _ _) as [cs | p |] eqn:Hcs;
    cbn [bind]; try discriminate.
  intros Hd; injection Hd as <-; unfold Len; simpl; rewrite <- Hclu.
  eapply (refine_loop_halving (NumExactCodes m) (len sample));
    [lia | lia | exact Hsize | | | exact Hcs]; [lia |].
  eapply assignCodesWithStep_positive; [| exact Hcs0]; lia.
Qed.

End FurtherConstruction.

Section FurtherMemory.

Context {T : Type} `{Ordered T}.

Lemma load_store_other (h : heap T) (s s' : slice) (vs : list T) :
  base s' <> base s -> load (store h s vs) s' = load h s'.
Proof.
  intros Hb; unfold load, store.
  destruct (nth_error h (base s)); [| reflexivity].
  rewrite nth_update_nth_other by exact Hb; reflexivity.
Qed.

Lemma valid_newest (h : heap T) (vs : list T) :
  valid_slice (h ++ [vs]) {| base := length h; off := 0; size := length vs |}.
Proof.
  unfold valid_slice; simpl.
  rewrite length_app, (nth_app_last h vs []); simpl; lia.
Qed.

(** The slice of the codes is over an array that [NewDict] allocated. *)
Lemma NewDict_mem_codes (m : Mode) (sample : slice) (h : heap T) (dm : DictMem) :
  snd (NewDict_mem m sample h) = Ok dm ->
  (length h <= base (mem_codes dm))%nat /\
  valid_slice (fst (NewDict_mem m sample h)) (mem_codes dm).
Proof.
  unfold NewDict_mem.
  destruct (Z.of_nat (size sample) =? 0).
  { simpl; intros Hd; injection Hd as <-; simpl.
    split; [lia | apply (valid_newest h [zero])]. }
  unfold alloc; rewrite load_newest, store_newest.
  destruct (len _ <=? NumExactCodes m);
    [| destruct (assignCodesWithMinimalStep _ _ _)]; simpl;
    try discriminate;
    intros Hd; injection Hd as <-; simpl;
    (split; [rewrite length_app; lia | apply valid_newest]).
Qed.

(** X18. The dictionary does not keep the caller's storage: the codes
    are in an array that [NewDict] allocated, and what the caller writes
    to the sample after the call does not change them. *)
Theorem NewDict_codes_not_aliased (m : Mode) (sample : slice) (h : heap T)
    (dm : DictMem) :
  valid_slice h sample ->
  snd (NewDict_mem m sample h) = Ok dm ->
  let h' := fst (NewDict_mem m sample h) in
  (length h <= base (mem_codes dm))%nat /\
  valid_slice h' (mem_codes dm) /\
  forall vs, load (store h' sample vs) (mem_codes dm) = load h' (mem_codes dm).
Proof.
  intros [Hb _] Hd; cbv zeta.
  destruct (NewDict_mem_codes m sample h dm Hd) as [Hfresh Hvalid].
  split; [exact Hfresh |]; split; [exact Hvalid |].
  intros vs; apply load_store_other; lia.
Qed.

End FurtherMemory.

Section FurtherRoundTrip.

Context {T : Type} `{Ordered T}.

(** An ascending list is its own sorted list of distinct values. *)
Lemma ascending_sort_distinct (l : list T) :
  ascending l -> sort_Slice (distinct l) = l.
Proof.
  intros Hasc; symmetry; apply sort_Slice_unique.
  - apply ascending_nondecreasing, Hasc.
  - apply NoDup_Permutation.
    + apply distinct_NoDup.
    + apply ascending_NoDup, Hasc.
    + intros x; apply distinct_In.
Qed.

(** X19. Building a dictionary from the representatives of a dictionary
    gives that dictionary again: for a valid mode, [NewDict] on the codes
    of what [NewDict] returned returns the same. *)
Theorem NewDict_idempotent (m : Mode) (sample : list T) (d : Dict T) :
  valid_mode m -> NewDict m sample = Ok d -> NewDict m (codes d) = Ok d.
Proof.
  intros Hm Hd.
  destruct (NewDict_valid_inv m sample d Hm Hd) as (Hmode & Hasc & Hlen).
  pose proof (sorted_clusters_distinct (codes d)) as Hcl.
  rewrite (ascending_sort_distinct _ Hasc) in Hcl.
  unfold NewDict.
  destruct (Z.eqb_spec (len (codes d)) 0) as [Hz | _]; [lia |].
  cbv zeta.
  destruct (Z.leb_spec (len (clusters (sort_Slice (codes d)))) (NumExactCodes m))
    as [_ | Hgt].
  - rewrite Hcl; destruct d; simpl in *; subst; reflexivity.
  - exfalso; revert Hgt; unfold len in *.
    rewrite <- (length_map value), Hcl; lia.
Qed.

(** X20. On a non-empty sample the dictionary has at most as many codes
    as the sample has distinct values, whatever the budget. *)
Theorem NewDict_Len_le_distinct (m : Mode) (sample : list T) :
  valid_mode m -> sample <> [] ->
  exists d, NewDict m sample = Ok d /\ Len d <= len (distinct sample).
Proof.
  intros Hm Hne; pose proof (NumExactCodes_valid m Hm) as Hn.
  destruct (NewDict_nonempty m sample Hne) as (d & Hd & _ & Hasc & Hincl & _);
    [lia |].
  exists d; split; [exact Hd |].
  unfold Len, len; apply inj_le, NoDup_incl_length.
  - apply ascending_NoDup, Hasc.
  - intros v Hv; apply distinct_In, Hincl, Hv.
Qed.

End FurtherRoundTrip.

(** * More samples of Go's [int] *)

Section MoreIntSamples.

(** Clusters [(1,2) (2,2) (3,1) (4,3) (5,1)] and a step of 4: the first
    segment takes the clusters of 1 and 2, which tie, and keeps the
    earlier; the cluster of 3 is skipped; the second segment takes the
    clusters of 4 and 5. *)
Example assignCodesWithStep_tie :
  segments 4 (clusters [1; 1; 2; 2; 3; 4; 4; 4; 5]) =
    Ok [(0, 2, 0); (3, 5, 3)]%nat /\
  assignCodesWithStep 4 (clusters [1; 1; 2; 2; 3; 4; 4; 4; 5]) = Ok [1; 4].
Proof. split; vm_compute; reflexivity. Qed.

Lemma Encode_counts_below_witness :
  Encode {| mode := Byte; codes := [1; 2; 3] |} 2 =
  Ok (2 * below 2 [1; 2; 3] + (if member 2 [1; 2; 3] then 2 else 1)).
Proof.
  refine (Encode_counts_below {| mode := Byte; codes := [1; 2; 3] |} 2 _).
  exists Byte, [3; 1; 2; 3; 3; 1]; reflexivity.
Defined.

Lemma Encode_within_mode_witness :
  exists c,
    Encode {| mode := Byte; codes := [1; 2; 3] |} 4 = Ok c /\
    1 <= c <= MaxInexactCode Byte /\
    (IsExact c = true -> 2 <= c <= MaxExactCode Byte).
Proof.
  refine (Encode_within_mode Byte [3; 1; 2; 3; 3; 1]
            {| mode := Byte; codes := [1; 2; 3] |} 4 _ _).
  - left; reflexivity.
  - reflexivity.
Defined.

Lemma Encode_tails_witness :
  (Encode {| mode := Byte; codes := [1; 2; 3] |} 0 = Ok 1 <->
   forall r, In r [1; 2; 3] -> lt 0 r) /\
  (Encode {| mode := Byte; codes := [1; 2; 3] |} 0 =
     Ok (2 * Len {| mode := Byte; codes := [1; 2; 3] |} + 1) <->
   forall r, In r [1; 2; 3] -> lt r 0).
Proof.
  refine (Encode_tails {| mode := Byte; codes := [1; 2; 3] |} 0 _).
  exists Byte, [3; 1; 2; 3; 3; 1]; reflexivity.
Defined.

Lemma Encode_reflects_order_witness : lt 0 2.
Proof.
  refine (Encode_reflects_order {| mode := Byte; codes := [1; 2; 3] |}
            0 2 1 4 _ _ _ _).
  - exists Byte, [3; 1; 2; 3; 3; 1]; reflexivity.
  - reflexivity.
  - reflexivity.
  - reflexivity.
Defined.

Lemma Encode_exact_injective_witness : 2 = 2.
Proof.
  refine (Encode_exact_injective {| mode := Byte; codes := [1; 2; 3] |}
            2 2 4 _ _ _ _).
  - exists Byte, [3; 1; 2; 3; 3; 1]; reflexivity.
  - reflexivity.
  - reflexivity.
  - reflexivity.
Defined.

Lemma clusters_run_lengths_witness :
  expand (clusters [3; 1; 1; 2]) = [3; 1; 1; 2] /\
  Forall (fun c => 1 <= count c) (clusters [3; 1; 1; 2]).
Proof.
  refine (clusters_run_lengths [3; 1; 1; 2] _).
  vm_compute; discriminate.
Defined.

Lemma clusters_count_occurrences_witness :
  3 = occurrences 3 [3; 1; 2; 3; 3; 1].
Proof.
  refine (clusters_count_occurrences [3; 1; 2; 3; 3; 1]
            {| value := 3; count := 3 |} _ _).
  - vm_compute; discriminate.
  - vm_compute; right; right; left; reflexivity.
Defined.

Lemma nonpositive_step_all_clusters_witness :
  assignCodesWithStep 0 (clusters (ints 10)) = Ok (map value (clusters (ints 10))).
Proof.
  refine (nonpositive_step_all_clusters 0 (clusters (ints 10)) _).
  vm_compute; discriminate.
Defined.

Lemma positive_step_every_other_witness :
  exists cs,
    assignCodesWithStep 3 (clusters (ints 10)) = Ok cs /\
    2 * len cs <= len (clusters (ints 10)) + 1 /\
    (clusters (ints 10) <> [] -> 1 <= len cs).
Proof.
  refine (positive_step_every_other 3 (clusters (ints 10)) _).
  reflexivity.
Defined.

Lemma segment_covers_step_witness :
  exists segs,
    segments 3 (clusters (ints 10)) = Ok segs /\
    assignCodesWithStep 3 (clusters (ints 10)) =
      Ok (map (seg_value (clusters (ints 10))) segs) /\
    Forall (fun s =>
      ((seg_last s < length (clusters (ints 10)))%nat ->
       3 <= covered (clusters (ints 10)) (seg_first s) (seg_last s)) /\
      ((seg_first s < seg_last s)%nat ->
       covered (clusters (ints 10)) (seg_first s) (seg_last s - 1) < 3)) segs.
Proof.
  refine (segment_covers_step 3 (clusters (ints 10)) _ _).
  - vm_compute; repeat constructor; discriminate.
  - vm_compute; discriminate.
Defined.

Lemma NewDict_Len_positive_witness :
  exists d, NewDict Byte (ints 128) = Ok d /\ 1 <= Len d.
Proof.
  refine (NewDict_Len_positive Byte (ints 128) _).
  left; reflexivity.
Defined.

Lemma NewDict_order_independent_witness :
  NewDict Word [1; 2; 2] = NewDict Word [2; 1; 2].
Proof.
  refine (NewDict_order_independent Word [1; 2; 2] [2; 1; 2] _).
  apply perm_swap.
Defined.

Lemma many_distinct_values_inexact_witness :
  exists d,
    NewDict Byte (ints 128) = Ok d /\
    exists v c,
      In v (ints 128) /\ ~ In v (codes d) /\
      Encode d v = Ok c /\ IsExact c = false.
Proof.
  refine (many_distinct_values_inexact Byte (ints 128) _ _).
  - left; reflexivity.
  - vm_compute; reflexivity.
Defined.

Lemma adaptive_path_halves_witness :
  exists d,
    NewDict Byte (ints 200) = Ok d /\
    2 * Len d <= len (distinct (ints 200)) + 1.
Proof.
  refine (adaptive_path_halves Byte (ints 200) _ _ _).
  - left; reflexivity.
  - vm_compute; discriminate.
  - vm_compute; reflexivity.
Defined.

Lemma NewDict_codes_not_aliased_witness :
  let h := [[7; 3; 1; 2; 9]] in
  let sample := {| base := 0; off := 1; size := 3 |} in
  let codes := {| base := 2; off := 0; size := 3 |} in
  let h' := fst (NewDict_mem Byte sample h) in
  (1 <= 2)%nat /\
  valid_slice h' codes /\
  forall vs, load (store h' sample vs) codes = load h' codes.
Proof.
  refine (NewDict_codes_not_aliased Byte {| base := 0; off := 1; size := 3 |}
            [[7; 3; 1; 2; 9]]
            {| mem_mode := Byte; mem_codes := {| base := 2; off := 0; size := 3 |} |}
            _ _).
  - unfold valid_slice; simpl; lia.
  - reflexivity.
Defined.

Lemma NewDict_idempotent_witness :
  NewDict Byte [1; 2; 3] = Ok {| mode := Byte; codes := [1; 2; 3] |}.
Proof.
  refine (NewDict_idempotent Byte [3; 1; 2; 3; 3; 1]
            {| mode := Byte; codes := [1; 2; 3] |} _ _).
  - left; reflexivity.
  - reflexivity.
Defined.

Lemma NewDict_Len_le_distinct_witness :
  exists d,
    NewDict Byte (ints 128) = Ok d /\ Len d <= len (distinct (ints 128)).
Proof.
  refine (NewDict_Len_le_distinct Byte (ints 128) _ _).
  - left; reflexivity.
  - vm_compute; discriminate.
Defined.

End MoreIntSamples.
